(** * stock-backend: the scoring core of [main.go]

    A shallow embedding of the peer comparison scorer, the trend scorer,
    the F-score calculator, the nested-field lookup, the two textual number
    parsers and the market-cap categorisation of [main.go], with the
    properties of its specification stated and settled against the code.

    Conventions.
    - [float64] is Rocq's primitive binary64 [float]; Go's arithmetic and
      comparisons on it are the primitive ones.
    - A Go [string] is a byte sequence: Rocq's [string].
    - [interface{}] is the tagged union [value]; [bson.M] and
      [map[string]interface{}] are [gmap string value]; [primitive.A] is
      [list value].
    - A run-time panic (failed type assertion, index out of range) is the
      [Panic] result of the [result] monad. *)

From Stdlib Require Import ZArith String Ascii List Bool Lia.
From Stdlib Require Import PrimFloat SpecFloat FloatOps FloatAxioms.
From stdpp Require Import gmap strings.
Import ListNotations.

Set Warnings "-register-all,-inexact-float".
Local Open Scope Z_scope.

(** ** Bytes of a string *)

Definition byte (c : ascii) : Z := Z.of_N (N_of_ascii c).

Fixpoint bytes (s : string) : list Z :=
  match s with
  | EmptyString => []
  | String c s' => byte c :: bytes s'
  end.

Fixpoint of_bytes (l : list Z) : string :=
  match l with
  | [] => EmptyString
  | b :: l' => String (ascii_of_N (Z.to_N b)) (of_bytes l')
  end.

(** [len(a)] *)
Definition len {A} (a : list A) : Z := Z.of_nat (List.length a).

(** [is_prefix p l]: the byte sequence [l] starts with [p]. *)
Fixpoint is_prefix (p l : list Z) : bool :=
  match p, l with
  | [], _ => true
  | _ :: _, [] => false
  | a :: p', b :: l' => (a =? b) && is_prefix p' l'
  end.

(** ** Go's [strings] package, as far as [main.go] uses it *)

Module strings.

(** [strings.Contains(s, substr)]. *)
Fixpoint contains_bytes (sub l : list Z) : bool :=
  is_prefix sub l ||
  match l with
  | [] => false
  | _ :: l' => contains_bytes sub l'
  end.

Definition Contains (s substr : string) : bool :=
  contains_bytes (bytes substr) (bytes s).

(** [strings.ReplaceAll(s, old, new)] for a non-empty [old] (every call in
    [main.go] passes a non-empty literal): the leftmost occurrences,
    not overlapping, are replaced. [skip] counts the bytes of a matched
    [old] still to be dropped. *)
Fixpoint replace_bytes (old new : list Z) (skip : nat) (l : list Z) : list Z :=
  match l with
  | [] => []
  | b :: l' =>
      match skip with
      | S k => replace_bytes old new k l'
      | O =>
          if is_prefix old l
          then new ++ replace_bytes old new (Nat.pred (List.length old)) l'
          else b :: replace_bytes old new O l'
      end
  end.

Definition ReplaceAll (s old new : string) : string :=
  of_bytes (replace_bytes (bytes old) (bytes new) O (bytes s)).

(** The UTF-8 encodings of the code points of [unicode.IsSpace]:
    the six ASCII ones, U+0085, U+00A0, U+1680, U+2000..U+200A, U+2028,
    U+2029, U+202F, U+205F and U+3000. *)
Definition spaces : list (list Z) :=
  [ [9]; [10]; [11]; [12]; [13]; [32];
    [194; 133]; [194; 160]; [225; 154; 128];
    [226; 128; 128]; [226; 128; 129]; [226; 128; 130]; [226; 128; 131];
    [226; 128; 132]; [226; 128; 133]; [226; 128; 134]; [226; 128; 135];
    [226; 128; 136]; [226; 128; 137]; [226; 128; 138];
    [226; 128; 168]; [226; 128; 169]; [226; 128; 175];
    [226; 129; 159]; [227; 128; 128] ].

(** The length of the white-space rune [l] starts with, if any, the
    runes being given by their encodings [sps]. *)
Definition space_width (sps : list (list Z)) (l : list Z) : option nat :=
  List.length <$> List.find (fun sp => is_prefix sp l) sps.

(** Dropping leading white space; [fuel] bounds the number of runes. *)
Fixpoint trim_left (sps : list (list Z)) (fuel : nat) (l : list Z) : list Z :=
  match fuel with
  | O => l
  | S fuel' =>
      match space_width sps l with
      | Some w => trim_left sps fuel' (skipn w l)
      | None => l
      end
  end.

(** [strings.TrimSpace(s)]: leading and trailing white space removed. The
    trailing runes are found from the end, as [utf8.DecodeLastRune]
    does, which on the reversed bytes is a search for the reversed
    encodings. *)
Definition TrimSpace (s : string) : string :=
  let l := bytes s in
  let l1 := trim_left spaces (List.length l) l in
  let r := trim_left (List.map (@rev Z) spaces) (List.length l1) (rev l1) in
  of_bytes (rev r).

(** [strings.ToLower(s)]: in a string of ASCII bytes the letters A to Z
    become a to z. A string with a byte outside ASCII goes through
    [strings.Map(unicode.ToLower, s)]; Unicode's case tables are no part of
    this development, and that map is the parameter [mapUnicode]. *)
Definition ToLower (mapUnicode : string -> string) (s : string) : string :=
  let l := bytes s in
  if forallb (fun c => c <? 128) l
  then of_bytes (List.map (fun c => if (65 <=? c) && (c <=? 90) then c + 32 else c) l)
  else mapUnicode s.

(** [strings.Join(elems, sep)]. *)
Fixpoint Join (elems : list string) (sep : string) : string :=
  match elems with
  | [] => EmptyString
  | a :: rest =>
      match rest with
      | [] => a
      | _ :: _ => a +:+ sep +:+ Join rest sep
      end
  end.

End strings.

(** ** Go's [regexp.MatchString], for the syntax of the patterns of [main.go] *)

Module regexp.

(** Regular expressions over bytes: the empty set, the empty string, an
    ASCII character, the class of white space, the dot, concatenation,
    choice, star and option. *)
Inductive regex :=
| Fail
| Empty
| Byte (c : Z)
| Space
| AnyChar
| Cat (r s : regex)
| Alt (r s : regex)
| Star (r : regex)
| Opt (r : regex).

(** The class of white space of the syntax: tab, line feed, form feed,
    carriage return and space. *)
Definition is_space (c : Z) : bool :=
  (c =? 9) || (c =? 10) || (c =? 12) || (c =? 13) || (c =? 32).

(** How the last item parsed may be followed: a plain item takes a
    repetition operator; a repeated one takes only the question mark that
    makes it lazy (which changes what is captured, not whether there is a
    match); after that, nothing. *)
Inductive item_kind := Plain | Repeated | Lazy.

(** The parser of a pattern, byte by byte. [stack] holds the sequences of
    the groups that are open, [seq] the sequence of the current group
    without its last item, which is [last]. The syntax is the one the
    patterns of [main.go] are written in: ASCII characters, the dot under
    a star, the escapes of white space and of punctuation, groups, star
    and question mark. Anything else (a dot on its own, which stands for
    a whole rune and not for a byte, choice, classes, anchors, counted
    repetition, other escapes, bytes outside ASCII) is outside the syntax
    read here, and [None]. *)
Fixpoint parse (s : list Z) (stack : list regex) (seq : regex)
    (last : option (regex * item_kind)) : option regex :=
  let flush := match last with Some (r, _) => Cat seq r | None => seq end in
  match s with
  | [] =>
      match stack with
      | [] => Some flush
      | _ :: _ => None
      end
  | c :: s' =>
      if c =? byte "(" then parse s' (flush :: stack) Empty None
      else if c =? byte ")" then
        match stack with
        | outer :: stack' => parse s' stack' outer (Some (flush, Plain))
        | [] => None
        end
      else if c =? byte "*" then
        match last with
        | Some (r, Plain) => parse s' stack seq (Some (Star r, Repeated))
        | _ => None
        end
      else if c =? byte "?" then
        match last with
        | Some (r, Plain) => parse s' stack seq (Some (Opt r, Repeated))
        | Some (r, Repeated) => parse s' stack seq (Some (r, Lazy))
        | _ => None
        end
      else if c =? byte "." then
        match s' with
        | d :: s'' =>
            if d =? byte "*" then parse s'' stack flush (Some (Star AnyChar, Repeated))
            else None
        | [] => None
        end
      else if c =? 92 then
        match s' with
        | d :: s'' =>
            if d =? byte "s" then parse s'' stack flush (Some (Space, Plain))
            else if (d =? byte "/") || (d =? byte ".") || (d =? byte "%")
            then parse s'' stack flush (Some (Byte d, Plain))
            else None
        | [] => None
        end
      else if (c =? byte "|") || (c =? byte "[") || (c =? byte "]") || (c =? byte "+")
              || (c =? byte "{") || (c =? byte "}") || (c =? byte "^") || (c =? byte "$")
              || (128 <=? c)
      then None
      else parse s' stack flush (Some (Byte c, Plain))
  end.

(** [regexp.Compile(pattern)] *)
Definition Compile (pattern : string) : option regex :=
  parse (bytes pattern) [] Empty None.

Fixpoint nullable (r : regex) : bool :=
  match r with
  | Fail | Byte _ | Space | AnyChar => false
  | Empty | Star _ | Opt _ => true
  | Cat r s => nullable r && nullable s
  | Alt r s => nullable r || nullable s
  end.

(** The derivative of [r] by the byte [c]: what is left to match after
    [c]. *)
Fixpoint deriv (c : Z) (r : regex) : regex :=
  match r with
  | Fail | Empty => Fail
  | Byte x => if c =? x then Empty else Fail
  | Space => if is_space c then Empty else Fail
  | AnyChar => if c =? 10 then Fail else Empty
  | Cat r s =>
      if nullable r then Alt (Cat (deriv c r) s) (deriv c s)
      else Cat (deriv c r) s
  | Alt r s => Alt (deriv c r) (deriv c s)
  | Star r => Cat (deriv c r) (Star r)
  | Opt r => deriv c r
  end.

(** Some prefix of [l] matches [r]. *)
Fixpoint prefix_match (r : regex) (l : list Z) : bool :=
  nullable r ||
  match l with
  | [] => false
  | c :: l' => prefix_match (deriv c r) l'
  end.

(** Some substring of [l] matches [r]: a match is looked for from every
    position. *)
Fixpoint search (r : regex) (l : list Z) : bool :=
  prefix_match r l ||
  match l with
  | [] => false
  | _ :: l' => search r l'
  end.

(** [regexp.MatchString(pattern, s)], the error of a pattern that does not
    compile being dropped as [main.go] drops it: no match. *)
Definition MatchString (pattern s : string) : bool :=
  match Compile pattern with
  | Some r => search r (bytes s)
  | None => false
  end.

End regexp.

(** ** Go's [strconv.ParseFloat(s, 64)] *)

Module strconv.

(** [NumError.Err]: the two errors of [ParseFloat]. *)
Inductive error := ErrSyntax | ErrRange.

(** [lower(c)] is [c | ('x' - 'X')]. *)
Definition lower (c : Z) : Z := Z.lor c 32.

Definition is_digit (c : Z) : bool := (byte "0" <=? c) && (c <=? byte "9").

Definition is_hex_letter (c : Z) : bool :=
  (byte "a" <=? lower c) && (lower c <=? byte "f").

(** [commonPrefixLenIgnoreCase(s, prefix)], [prefix] in lower case. *)
Fixpoint commonPrefixLenIgnoreCase (s prefix : list Z) : Z :=
  match s, prefix with
  | c :: s', p :: prefix' =>
      let c := if (byte "A" <=? c) && (c <=? byte "Z") then c + 32 else c in
      if c =? p then 1 + commonPrefixLenIgnoreCase s' prefix' else 0
  | _, _ => 0
  end.

Definition inf_prefix (s : list Z) (neg : bool) (nsign : Z) : option (float * Z) :=
  let n := commonPrefixLenIgnoreCase s (bytes "infinity") in
  let n := if (3 <? n) && (n <? 8) then 3 else n in
  if (n =? 3) || (n =? 8)
  then Some (if neg then neg_infinity else infinity, nsign + n)
  else None.

(** [special(s)]: an optionally signed "inf" or "infinity", or "nan",
    in any case; the value and the number of bytes read. A sign falls
    through to the infinity case only. *)
Definition special (s : list Z) : option (float * Z) :=
  match s with
  | [] => None
  | c :: s' =>
      if (c =? byte "+") || (c =? byte "-") then inf_prefix s' (c =? byte "-") 1
      else if (c =? byte "i") || (c =? byte "I") then inf_prefix s false 0
      else if (c =? byte "n") || (c =? byte "N") then
        if commonPrefixLenIgnoreCase s (bytes "nan") =? 3 then Some (nan, 3) else None
      else None
  end.

(** The state of the digit loop of [readFloat]. [mantissa] holds every
    digit read: Go keeps the first 19 (16 in base 16) in a [uint64]
    with a [trunc] flag, and converts exactly when that flag matters,
    so the float it returns is the rounding of the exact value. *)
Record digits := {
  mantissa : Z;
  nd : Z;
  dp : Z;
  sawdot : bool;
  sawdigits : bool;
  underscores : bool
}.

Definition push_digit (base d : Z) (st : digits) : digits :=
  {| mantissa := mantissa st * base + d; nd := nd st + 1; dp := dp st;
     sawdot := sawdot st; sawdigits := true; underscores := underscores st |}.

(** The [loop:] of [readFloat]; returns the state and the unread bytes. *)
Fixpoint read_digits (hex : bool) (s : list Z) (st : digits) : digits * list Z :=
  match s with
  | [] => (st, [])
  | c :: s' =>
      if c =? byte "_" then
        read_digits hex s'
          {| mantissa := mantissa st; nd := nd st; dp := dp st;
             sawdot := sawdot st; sawdigits := sawdigits st; underscores := true |}
      else if c =? byte "." then
        if sawdot st then (st, s)
        else read_digits hex s'
          {| mantissa := mantissa st; nd := nd st; dp := nd st;
             sawdot := true; sawdigits := sawdigits st; underscores := underscores st |}
      else if is_digit c then
        if (c =? byte "0") && (nd st =? 0) then
          read_digits hex s'
            {| mantissa := mantissa st; nd := nd st; dp := dp st - 1;
               sawdot := sawdot st; sawdigits := true; underscores := underscores st |}
        else read_digits hex s' (push_digit (if hex then 16 else 10) (c - byte "0") st)
      else if hex && is_hex_letter c then
        read_digits hex s' (push_digit 16 (lower c - byte "a" + 10) st)
      else (st, s)
  end.

(** The digits of the exponent: [e] stops growing at 10000. *)
Fixpoint read_exp (s : list Z) (e : Z) (us : bool) : Z * bool * list Z :=
  match s with
  | [] => (e, us, [])
  | c :: s' =>
      if is_digit c then read_exp s' (if e <? 10000 then e * 10 + (c - byte "0") else e) us
      else if c =? byte "_" then read_exp s' e true
      else (e, us, s)
  end.

(** [underscoreOK(s)]: an underscore only between digits, or between a
    base prefix and a digit. [prev] is the status of the previous byte:
    "^" start, "0" digit or prefix, "_" underscore, "!" other. *)
Fixpoint underscore_loop (hex : bool) (prev : Z) (s : list Z) : bool :=
  match s with
  | [] => negb (prev =? byte "_")
  | c :: s' =>
      if is_digit c || (hex && is_hex_letter c) then underscore_loop hex (byte "0") s'
      else if c =? byte "_" then
        if negb (prev =? byte "0") then false else underscore_loop hex (byte "_") s'
      else if prev =? byte "_" then false
      else underscore_loop hex (byte "!") s'
  end.

Definition underscoreOK (s : list Z) : bool :=
  let s :=
    match s with
    | c :: s' => if (c =? byte "-") || (c =? byte "+") then s' else s
    | [] => s
    end in
  match s with
  | c0 :: c1 :: s' =>
      if (c0 =? byte "0") &&
         ((lower c1 =? byte "b") || (lower c1 =? byte "o") || (lower c1 =? byte "x"))
      then underscore_loop (lower c1 =? byte "x") (byte "0") s'
      else underscore_loop false (byte "^") s
  | _ => underscore_loop false (byte "^") s
  end.

(** What [readFloat] returns when [ok]: the value read is
    [±lit_mantissa * base^lit_exp], base 2 when [lit_hex] and 10
    otherwise, and [lit_n] bytes were read. *)
Record literal := {
  lit_mantissa : Z;
  lit_exp : Z;
  lit_neg : bool;
  lit_hex : bool;
  lit_n : Z
}.

(** The optional sign of [readFloat]. *)
Definition read_sign (s : list Z) : bool * list Z :=
  match s with
  | c :: s' =>
      if c =? byte "+" then (false, s')
      else if c =? byte "-" then (true, s') else (false, s)
  | [] => (false, s)
  end.

(** The base prefix: "0x" followed by at least one byte. *)
Definition read_base (s : list Z) : bool * list Z :=
  match s with
  | c0 :: c1 :: ((_ :: _) as s') =>
      if (c0 =? byte "0") && (lower c1 =? byte "x") then (true, s') else (false, s)
  | _ => (false, s)
  end.

(** The optional exponent, "e" in base 10 and a mandatory "p" in base
    16, moves the point [dp]; [None] when [readFloat] gives up. *)
Definition read_exponent (hex : bool) (dp : Z) (us : bool) (s : list Z)
    : option (Z * bool * list Z) :=
  match s with
  | c :: s1 =>
      if lower c =? (if hex then byte "p" else byte "e") then
        match s1 with
        | [] => None
        | d :: s2 =>
            let '(esign, s3) :=
              if d =? byte "+" then (1, s2)
              else if d =? byte "-" then (-1, s2) else (1, s1) in
            match s3 with
            | d' :: _ =>
                if is_digit d' then
                  let '(e, us, s4) := read_exp s3 0 us in
                  Some (dp + e * esign, us, s4)
                else None
            | [] => None
            end
        end
      else if hex then None else Some (dp, us, s)
  | [] => if hex then None else Some (dp, us, s)
  end.

Definition readFloat (s : list Z) : option literal :=
  let '(neg, s1) := read_sign s in
  let '(hex, s2) := read_base s1 in
  let '(st, s3) :=
    read_digits hex s2
      {| mantissa := 0; nd := 0; dp := 0;
         sawdot := false; sawdigits := false; underscores := false |} in
  if negb (sawdigits st) then None else
  let dp0 := if sawdot st then dp st else nd st in
  let scale := if hex then 4 else 1 in
  match read_exponent hex (dp0 * scale) (underscores st) s3 with
  | None => None
  | Some (dp1, us, rest) =>
      let n := len s - len rest in
      if us && negb (underscoreOK (firstn (Z.to_nat n) s)) then None
      else Some {| lit_mantissa := mantissa st;
                   lit_exp := if mantissa st =? 0 then 0 else dp1 - nd st * scale;
                   lit_neg := neg; lit_hex := hex; lit_n := n |}
  end.

(** The binary64 nearest to [±num/den] ([0 <= num], [0 < den]), ties to
    even: a quotient of at least 64 bits, with one more low bit that
    says whether the division left a remainder, is rounded by
    [binary_normalize]. *)
Definition round_ratio (neg : bool) (num den : Z) : spec_float :=
  let k := 64 + Z.log2_up den in
  let q := (num * 2 ^ k) / den in
  let r := (num * 2 ^ k) mod den in
  let m := 2 * q + (if r =? 0 then 0 else 1) in
  binary_normalize prec emax (if neg then - m else m) (- k - 1) neg.

Definition literal_value (l : literal) : float :=
  SF2Prim
    (if lit_hex l then
       binary_normalize prec emax
         (if lit_neg l then - lit_mantissa l else lit_mantissa l) (lit_exp l) (lit_neg l)
     else if 0 <=? lit_exp l then
       round_ratio (lit_neg l) (lit_mantissa l * 10 ^ lit_exp l) 1
     else round_ratio (lit_neg l) (lit_mantissa l) (10 ^ (- lit_exp l))).

(** [parseFloatPrefix(s, 64)]: the value, the bytes read and the error.
    A value that rounds to an infinity is a range error. *)
Definition parseFloatPrefix (s : list Z) : float * Z * option error :=
  match special s with
  | Some (f, n) => (f, n, None)
  | None =>
      match readFloat s with
      | None => (0%float, 0, Some ErrSyntax)
      | Some l =>
          let f := literal_value l in
          (f, lit_n l, if is_infinity f then Some ErrRange else None)
      end
  end.

(** [ParseFloat(s, 64)]: the whole string has to be read. *)
Definition ParseFloat (s : string) : float * option error :=
  let l := bytes s in
  let '(f, n, err) := parseFloatPrefix l in
  match err with
  | Some ErrSyntax => (f, err)
  | _ => if n =? len l then (f, err) else (0%float, Some ErrSyntax)
  end.

End strconv.

(** ** Go's [math] package, as far as [main.go] uses it *)

Module math.

(** [math.Max(x, y)] with its special cases: an infinity wins, then a
    NaN, and of two zeros the positive one. *)
Definition Max (x y : float) : float :=
  if (x =? infinity)%float || (y =? infinity)%float then infinity
  else if is_nan x || is_nan y then nan
  else if is_zero x && (x =? y)%float then (if get_sign x then y else x)
  else if (y <? x)%float then x else y.

(** [math.Trunc(x)]: the integer part; zeros, infinities and NaN are
    returned as they are. *)
Definition Trunc (x : float) : float :=
  match Prim2SF x with
  | S754_finite s m e =>
      if 0 <=? e then x
      else
        let q := Z.shiftr (Zpos m) (- e) in
        SF2Prim (binary_normalize prec emax (if s then - q else q) 0 s)
  | _ => x
  end.

(** [math.Round(x)]: the nearest integer, halves away from zero, by the
    reference definition the Go source gives for it:
    [t := Trunc(x); if Abs(x-t) >= 0.5 { return t + Copysign(1, x) }; return t]. *)
Definition Round (x : float) : float :=
  let t := Trunc x in
  if (0.5 <=? abs (x - t))%float
  then (t + (if get_sign x then -1 else 1))%float
  else t.

End math.

(** [float64(n)] for an [int] [n]. *)
Definition float64_of_int (n : Z) : float :=
  SF2Prim (binary_normalize prec emax n 0 false).

(** ** Dynamic values and panics *)

(** What an [interface{}] of a decoded document holds: [nil], a [string],
    a [float64], an [int], a [primitive.A], a [bson.M], or a value of
    another dynamic type, of which only the type's name is kept. *)
Inductive value :=
| VNil
| VString (s : string)
| VFloat64 (f : float)
| VInt (n : Z)
| VArr (a : list value)
| VMap (m : gmap string value)
| VOther (type_name : string).

(** [m[key]] on a map of [interface{}]: [nil] for a missing key. *)
Definition map_index (m : gmap string value) (key : string) : value :=
  default VNil (m !! key).

Inductive panic :=
| TypeAssertion
| IndexOutOfRange (i : Z) (len : Z).

Inductive result (A : Type) :=
| Ok (a : A)
| Panic (p : panic).
Arguments Ok {A} a.
Arguments Panic {A} p.

#[global] Instance result_ret : MRet result := fun A a => Ok a.
#[global] Instance result_bind : MBind result := fun A B f r =>
  match r with
  | Ok a => f a
  | Panic p => Panic p
  end.

(** [a[i]]: panics outside [0 <= i < len(a)]. *)
Definition index (a : list value) (i : Z) : result value :=
  if (0 <=? i) && (i <? len a)
  then Ok (nth (Z.to_nat i) a VNil)
  else Panic (IndexOutOfRange i (len a)).

(** [v.(string)] and [v.(bson.M)], the asserting forms. *)
Definition assert_string (v : value) : result string :=
  match v with
  | VString s => Ok s
  | _ => Panic TypeAssertion
  end.

Definition assert_map (v : value) : result (gmap string value) :=
  match v with
  | VMap m => Ok m
  | _ => Panic TypeAssertion
  end.

(** ** [main.go] *)

Record Stock := {
  Name : string;
  PE : float;
  MarketCap : float;
  DividendYield : float;
  ROCE : float;
  QuarterlySales : float;
  QuarterlyProfit : float;
  Cons : list string;
  Pros : list string
}.

(** [toFloat]: a string has its commas removed and, when it holds a
    percent sign, the percent signs removed and the value divided by 100;
    anything that is not a string, or does not parse, is [0.0]. *)
Definition toFloat (value : value) : float :=
  match value with
  | VString str =>
      let cleanStr := strings.ReplaceAll str "," "" in
      if strings.Contains cleanStr "%" then
        let cleanStr := strings.ReplaceAll cleanStr "%" "" in
        match strconv.ParseFloat cleanStr with
        | (f, None) => (f / 100.0)%float
        | (_, Some _) => 0.0%float
        end
      else
        match strconv.ParseFloat cleanStr with
        | (f, None) => f
        | (_, Some _) => 0.0%float
        end
  | _ => 0.0%float
  end.

(** [parseFloat]: the type switch of the peer scorer. *)
Definition parseFloat (value : value) : float :=
  match value with
  | VString v =>
      match strconv.ParseFloat v with
      | (f, None) => f
      | (_, Some _) => 0.0%float
      end
  | VFloat64 v => v
  | VInt v => float64_of_int v
  | _ => 0.0%float
  end.

Definition toStringArray (value : value) : list string :=
  match value with
  | VArr arr =>
      omap (fun v => match v with VString str => Some str | _ => None end) arr
  | _ => []
  end.

(** The body of the peer loop of [compareWithPeers]: the six comparisons
    of the stock with one peer, added to [peerScore]. *)
Definition peer_round (stock : Stock) (peer : gmap string value) (peerScore : float) : float :=
  let peerPE := parseFloat (map_index peer "pe") in
  let peerMarketCap := parseFloat (map_index peer "market_cap") in
  let peerDividendYield := parseFloat (map_index peer "div_yield") in
  let peerROCE := parseFloat (map_index peer "roce") in
  let peerQuarterlySales := parseFloat (map_index peer "sales_qtr") in
  let peerQuarterlyProfit := parseFloat (map_index peer "np_qtr") in
  let peerScore :=
    if (PE stock <? peerPE)%float then (peerScore + 10)%float
    else (peerScore + math.Max 0 (10 - (PE stock - peerPE)))%float in
  let peerScore :=
    if (peerMarketCap <? MarketCap stock)%float then (peerScore + 5)%float else peerScore in
  let peerScore :=
    if (peerDividendYield <? DividendYield stock)%float then (peerScore + 5)%float else peerScore in
  let peerScore :=
    if (peerROCE <? ROCE stock)%float then (peerScore + 10)%float else peerScore in
  let peerScore :=
    if (peerQuarterlySales <? QuarterlySales stock)%float then (peerScore + 5)%float else peerScore in
  if (peerQuarterlyProfit <? QuarterlyProfit stock)%float then (peerScore + 10)%float else peerScore.

(** The comparisons with the median record, added to the same [peerScore]. *)
Definition median_round (stock : Stock) (median : gmap string value) (peerScore : float) : float :=
  let medianPE := parseFloat (map_index median "pe") in
  let medianMarketCap := parseFloat (map_index median "market_cap") in
  let medianDividendYield := parseFloat (map_index median "div_yield") in
  let medianROCE := parseFloat (map_index median "roce") in
  let medianQuarterlySales := parseFloat (map_index median "sales_qtr") in
  let medianQuarterlyProfit := parseFloat (map_index median "np_qtr") in
  let peerScore :=
    if (PE stock <? medianPE)%float then (peerScore + 5)%float
    else (peerScore + math.Max 0 (5 - (PE stock - medianPE)))%float in
  let peerScore :=
    if (medianMarketCap <? MarketCap stock)%float then (peerScore + 3)%float else peerScore in
  let peerScore :=
    if (medianDividendYield <? DividendYield stock)%float then (peerScore + 3)%float else peerScore in
  let peerScore :=
    if (medianROCE <? ROCE stock)%float then (peerScore + 5)%float else peerScore in
  let peerScore :=
    if (medianQuarterlySales <? QuarterlySales stock)%float then (peerScore + 2)%float else peerScore in
  if (medianQuarterlyProfit <? QuarterlyProfit stock)%float then (peerScore + 5)%float else peerScore.

(** [for _, peerRaw := range arr[:len(arr)-1]]: each element is asserted to
    be a [bson.M]. *)
Fixpoint peers_loop (stock : Stock) (peers : list value) (peerScore : float) : result float :=
  match peers with
  | [] => Ok peerScore
  | peerRaw :: peers' =>
      peer ← assert_map peerRaw;
      peers_loop stock peers' (peer_round stock peer peerScore)
  end.

Definition compareWithPeers (stock : Stock) (peers : value) : result float :=
  let medianScore := 0.0%float in
  match peers with
  | VArr arr =>
      if len arr <? 2 then Ok 0.0%float
      else
        peerScore ← peers_loop stock (firstn (Z.to_nat (len arr - 1)) arr) 0.0%float;
        medianRaw ← index arr (len arr - 1);
        median ← assert_map medianRaw;
        let peerScore := median_round stock median peerScore in
        let peerCount := len arr - 1 in
        if 0 <? peerCount then Ok (peerScore / float64_of_int peerCount)%float
        else Ok (peerScore * 0.9 + medianScore * 0.1)%float
  | _ => Ok (0.0 * 0.9 + medianScore * 0.1)%float
  end.

(** The innermost block of [analyzeTrend], for one [key, v] of the current
    element: when the previous element has the key, the score moves by 5
    up or down, or stays, and the comparison is counted. The state is
    [(trendScore, comparisons)]. Go ranges over a map in an order it does
    not specify; the loops over maps are [map_fold], whose order is the
    one taken here. *)
Definition trend_key (prevElem : gmap string value) (key : string) (v : value)
    (st : float * Z) : float * Z :=
  match prevElem !! key with
  | Some prevVal =>
      let trendScore :=
        if (toFloat prevVal <? toFloat v)%float then (st.1 + 5)%float
        else if (toFloat v <? toFloat prevVal)%float then (st.1 - 5)%float
        else st.1 in
      (trendScore, st.2 + 1)
  | None => st
  end.

(** [for i, elem := range quarterArray]: elements that are not maps are
    passed over, and [prevElem] is the last map seen ([None] for the
    [nil] it starts as). *)
Fixpoint trend_array (i : Z) (quarterArray : list value)
    (prevElem : option (gmap string value)) (st : float * Z) : float * Z :=
  match quarterArray with
  | [] => st
  | elem :: rest =>
      match elem with
      | VMap elemMap =>
          let st :=
            match prevElem with
            | Some prev =>
                if 0 <? i then map_fold (trend_key prev) st elemMap else st
            | None => st
            end in
          trend_array (i + 1) rest (Some elemMap) st
      | _ => trend_array (i + 1) rest prevElem st
      end
  end.

(** [for _, quarterData := range data]. *)
Definition trend_section (_ : string) (quarterData : value) (st : float * Z) : float * Z :=
  match quarterData with
  | VArr quarterArray => trend_array 0 quarterArray None st
  | _ => st
  end.

Definition analyzeTrend (stock : Stock) (pastData : value) : float :=
  let '(trendScore, comparisons) :=
    match pastData with
    | VMap data => map_fold trend_section (0.0%float, 0) data
    | _ => (0.0%float, 0)
    end in
  if 0 <? comparisons then (trendScore / float64_of_int comparisons)%float
  else 0.0%float.

(** The [Stock] that [rateStock] builds from the document. *)
Definition stockData_of (name : string) (stock : gmap string value) : Stock :=
  {| Name := name;
     PE := toFloat (map_index stock "stockPE");
     MarketCap := toFloat (map_index stock "marketCap");
     DividendYield := toFloat (map_index stock "dividendYield");
     ROCE := toFloat (map_index stock "roce");
     QuarterlySales := 0.0%float;
     QuarterlyProfit := 0.0%float;
     Cons := toStringArray (map_index stock "cons");
     Pros := toStringArray (map_index stock "pros") |}.

Definition rateStock (stock : gmap string value) : result float :=
  name ← assert_string (map_index stock "name");
  let stockData := stockData_of name stock in
  peerScore ← compareWithPeers stockData (map_index stock "peers");
  let peerComparisonScore := (peerScore * 0.5)%float in
  let trendScore := (analyzeTrend stockData (map_index stock "quarterlyResults") * 0.4)%float in
  let finalScore := (peerComparisonScore + trendScore)%float in
  Ok (math.Round (finalScore * 100) / 100)%float.

(** The key rewriting of [getNestedArrayField]: trimmed, and when it holds
    a plus sign every " +" becomes a no-break space (U+00A0, the bytes
    194 160) and "+". *)
Definition nbsp_plus : string :=
  String (ascii_of_nat 194) (String (ascii_of_nat 160) "+").

Definition normalize_key (key : string) : string :=
  let key := strings.TrimSpace key in
  if strings.Contains key "+" then strings.ReplaceAll key " +" nbsp_plus else key.

(** [getNestedArrayField(stock, path...)]: the last key has to hold an
    array and every key before it a map; anything else is the empty
    array. *)
Fixpoint getNestedArrayField (current : gmap string value) (path : list string) : list value :=
  match path with
  | [] => []
  | key :: rest =>
      let key := normalize_key key in
      match rest with
      | [] =>
          match current !! key with
          | Some (VArr result) => result
          | _ => []
          end
      | _ :: _ =>
          match current !! key with
          | Some (VMap result) => getNestedArrayField result rest
          | _ => []
          end
      end
  end.

Definition calculateRoa (netProfit totalAssets : string) : float :=
  (toFloat (VString netProfit) / toFloat (VString totalAssets))%float.

(** [increaseInRoa]: four unguarded index expressions, each asserted to be
    a string, in the order Go evaluates them. *)
Definition increaseInRoa (netProfit totalAssets : list value) : result bool :=
  np2 ← index netProfit (len netProfit - 2) ≫= assert_string;
  ta1 ← index totalAssets (len totalAssets - 1) ≫= assert_string;
  let currentYearRoa := calculateRoa np2 ta1 in
  np3 ← index netProfit (len netProfit - 3) ≫= assert_string;
  ta2 ← index totalAssets (len totalAssets - 2) ≫= assert_string;
  let previousYearRoa := calculateRoa np3 ta2 in
  Ok (previousYearRoa <? currentYearRoa)%float.

Definition calculateProfitabilityScore (stock : gmap string value) : result Z :=
  let score := 0 in
  let netProfit := getNestedArrayField stock ["profitLoss"; "Net Profit +"] in
  let totalAssets := getNestedArrayField stock ["balanceSheet"; "Total Assets"] in
  (* 1.1 *)
  score ←
    (if (0 <? len netProfit) && (0 <? len totalAssets) then
       np2 ← index netProfit (len netProfit - 2) ≫= assert_string;
       ta1 ← index totalAssets (len totalAssets - 1) ≫= assert_string;
       let roa := calculateRoa np2 ta1 in
       Ok (if (0 <? roa)%float then score + 1 else score)
     else Ok score);
  (* 1.2 *)
  let cashFlowOps := getNestedArrayField stock ["cashFlows"; "Cash from Operating Activity +"] in
  score ←
    (if 1 <? len cashFlowOps then
       cur ← index cashFlowOps (len cashFlowOps - 1);
       prev ← index cashFlowOps (len cashFlowOps - 2);
       let currentCashFlow := toFloat cur in
       let previousCashFlow := toFloat prev in
       Ok (if (previousCashFlow <? currentCashFlow)%float then score + 1 else score)
     else Ok score);
  (* 1.3 *)
  inc ← increaseInRoa netProfit totalAssets;
  let score := if inc : bool then score + 1 else score in
  (* 1.4 *)
  if (0 <? len cashFlowOps) && (1 <? len netProfit) then
    cf ← index cashFlowOps (len cashFlowOps - 1);
    np ← index netProfit (len netProfit - 2);
    let cashFlow := toFloat cf in
    let profit := toFloat np in
    Ok (if (profit <? cashFlow)%float then score + 1 else score)
  else Ok score.

Definition calculateLeverageScore (stock : gmap string value) : result Z :=
  let score := 0 in
  (* 2.1 *)
  let borrowings := getNestedArrayField stock ["balanceSheet"; "Borrowings +"] in
  let totalAssets := getNestedArrayField stock ["balanceSheet"; "Total Assets"] in
  score ←
    (if (1 <? len borrowings) && (1 <? len totalAssets) then
       b1 ← index borrowings (len borrowings - 1);
       t1 ← index totalAssets (len totalAssets - 1);
       let currentRatio := (toFloat b1 / toFloat t1)%float in
       b2 ← index borrowings (len borrowings - 2);
       t2 ← index totalAssets (len totalAssets - 2);
       let previousRatio := (toFloat b2 / toFloat t2)%float in
       Ok (if (currentRatio <=? previousRatio)%float then score + 1 else score)
     else Ok score);
  (* 2.2 *)
  let otherAssets := getNestedArrayField stock ["balanceSheet"; "Other Assets +"] in
  let otherLiabilities := getNestedArrayField stock ["balanceSheet"; "Other Liabilities +"] in
  score ←
    (if (1 <? len otherAssets) && (1 <? len otherLiabilities) then
       a1 ← index otherAssets (len otherAssets - 1);
       l1 ← index otherLiabilities (len otherLiabilities - 1);
       let currentRatio := (toFloat a1 / toFloat l1)%float in
       a2 ← index otherAssets (len otherAssets - 2);
       l2 ← index otherLiabilities (len otherLiabilities - 2);
       let previousRatio := (toFloat a2 / toFloat l2)%float in
       Ok (if (previousRatio <? currentRatio)%float then score + 1 else score)
     else Ok score);
  (* 2.3 *)
  let equityCapital := getNestedArrayField stock ["balanceSheet"; "Equity Capital"] in
  if 1 <? len equityCapital then
    e1 ← index equityCapital (len equityCapital - 1);
    e2 ← index equityCapital (len equityCapital - 2);
    let currentEquity := toFloat e1 in
    let previousEquity := toFloat e2 in
    Ok (if (currentEquity <=? previousEquity)%float then score + 1 else score)
  else Ok score.

Definition calculateOperatingEfficiencyScore (stock : gmap string value) : result Z :=
  let score := 0 in
  (* 3.1 *)
  let opm := getNestedArrayField stock ["profitLoss"; "OPM %"] in
  score ←
    (if 2 <? len opm then
       o2 ← index opm (len opm - 2);
       o3 ← index opm (len opm - 3);
       let currentOpm := toFloat o2 in
       let previousOpm := toFloat o3 in
       Ok (if (previousOpm <? currentOpm)%float then score + 1 else score)
     else Ok score);
  (* 3.2 *)
  let sales := getNestedArrayField stock ["profitLoss"; "Sales +"] in
  let totalAssets := getNestedArrayField stock ["balanceSheet"; "Total Assets"] in
  if (2 <? len sales) && (1 <? len totalAssets) then
    s2 ← index sales (len sales - 2);
    t1 ← index totalAssets (len totalAssets - 1);
    let currentRatio := (toFloat s2 / toFloat t1)%float in
    s3 ← index sales (len sales - 3);
    t2 ← index totalAssets (len totalAssets - 2);
    let previousRatio := (toFloat s3 / toFloat t2)%float in
    Ok (if (previousRatio <? currentRatio)%float then score + 1 else score)
  else Ok score.

Definition generateFScore (stock : gmap string value) : result Z :=
  let fScore := 0 in
  p ← calculateProfitabilityScore stock;
  let fScore := fScore + p in
  l ← calculateLeverageScore stock;
  let fScore := fScore + l in
  o ← calculateOperatingEfficiencyScore stock;
  let fScore := fScore + o in
  Ok fScore.

(** [getMarketCapCategory]: a parse error is logged and the value
    [ParseFloat] returned with it is used all the same. *)
Definition getMarketCapCategory (marketCapValue : string) : string :=
  let cleanMarketCapValue := strings.ReplaceAll marketCapValue "," "" in
  let '(marketCap, _) := strconv.ParseFloat cleanMarketCapValue in
  if (20000 <=? marketCap)%float then "Large Cap"
  else if (5000 <=? marketCap)%float && (marketCap <? 20000)%float then "Mid Cap"
  else if (marketCap <? 5000)%float then "Small Cap"
  else "Unknown Category".

(** ** [main.go]: matching headers and reading the rows of a sheet *)

Section Sheets.

(** [strings.Map(unicode.ToLower, s)] on a string with a byte outside
    ASCII. *)
Variable unicode_ToLower : string -> string.

Definition normalizeString (s : string) : string :=
  strings.ToLower unicode_ToLower (strings.TrimSpace s).

(** [matchHeader]: the normalized cell matches one of the patterns. *)
Definition matchHeader (cellValue : string) (patterns : list string) : bool :=
  let normalizedValue := normalizeString cellValue in
  existsb (fun pattern => regexp.MatchString pattern normalizedValue) patterns.

(** The [switch] of [parseXlsxFile] on one header cell: the standard key of
    the first case whose patterns match, if any. *)
Definition header_key (headerCell : string) : option string :=
  let normalizedHeader := normalizeString headerCell in
  if matchHeader normalizedHeader ["name\s*of\s*(the)?\s*instrument"]
  then Some "Name of the Instrument"
  else if matchHeader normalizedHeader ["isin"] then Some "ISIN"
  else if matchHeader normalizedHeader ["rating\s*/\s*industry"; "industry\s*/\s*rating"]
  then Some "Industry/Rating"
  else if matchHeader normalizedHeader ["quantity"] then Some "Quantity"
  else if matchHeader normalizedHeader ["market\s*/\s*fair\s*value.*"; "market\s*value.*"]
  then Some "Market/Fair Value"
  else if matchHeader normalizedHeader ["%.*nav"; "%.*net\s*assets"]
  then Some "Percentage of AUM"
  else None.

(** [for i, headerCell := range row]: each recognized cell files its
    column under its key, a later column overwriting an earlier one. *)
Fixpoint build_header (i : Z) (row : list string) (headerMap : gmap string Z) : gmap string Z :=
  match row with
  | [] => headerMap
  | headerCell :: row' =>
      build_header (i + 1) row'
        match header_key headerCell with
        | Some key => <[key := i]> headerMap
        | None => headerMap
        end
  end.

(** A row with a cell that names the instrument column: the header row. *)
Definition is_header_row (row : list string) : bool :=
  existsb (fun cell => matchHeader cell ["name\s*of\s*(the)?\s*instrument"]) row.

(** The end marker: the cells of the row, joined, hold "subtotal" or
    "total" in any case. *)
Definition is_end_marker (row : list string) : bool :=
  let joinedRow := strings.Join row "" in
  strings.Contains (strings.ToLower unicode_ToLower joinedRow) "subtotal"
  || strings.Contains (strings.ToLower unicode_ToLower joinedRow) "total".

(** [mapValues] *)
Definition mapValues : gmap string string :=
  list_to_map
    [("Sun Pharmaceutical Industries Limited", "Sun Pharma.Inds.");
     ("KEC International Limited", "K E C Intl.");
     ("Sandhar Technologies Limited", "Sandhar Tech");
     ("Samvardhana Motherson International Limited", "Samvardh. Mothe.");
     ("Coromandel International Limited", "Coromandel Inter")].

(** The clean-up of the query string. *)
Definition clean_query (queryString : string) : string :=
  let queryString := strings.ReplaceAll queryString " Corporation " " Corpn " in
  let queryString := strings.ReplaceAll queryString " corporation " " Corpn " in
  let queryString := strings.ReplaceAll queryString " Limited" " Ltd " in
  let queryString := strings.ReplaceAll queryString " limited" " Ltd " in
  let queryString := strings.ReplaceAll queryString " and " " & " in
  strings.ReplaceAll queryString " And " " & ".

(** What one data row is turned into before the store is asked: the cells
    of the header's columns, the instrument name and the query string. *)
Record instrument_row := {
  stockDetail : gmap string string;
  instrumentName : string;
  queryString : string
}.

(** The body of the row loop for a data row: the cell of every header
    column, the empty string where the row is too short; no instrument
    when the name is missing or empty; the name mapped by [mapValues]. The
    columns of a header map are positions in the header row, so none is
    negative. *)
Definition read_row (headerMap : gmap string Z) (row : list string) : option instrument_row :=
  let stockDetail := (fun idx => nth (Z.to_nat idx) row EmptyString) <$> headerMap in
  match stockDetail !! "Name of the Instrument" with
  | None => None
  | Some name =>
      if String.eqb name "" then None
      else
        let '(stockDetail, name) :=
          match mapValues !! name with
          | Some mappedName => (<["Name of the Instrument" := mappedName]> stockDetail, mappedName)
          | None => (stockDetail, name)
          end in
        Some {| stockDetail := stockDetail; instrumentName := name;
                queryString := clean_query name |}
  end.

(** The row loop of [parseXlsxFile] over the rows of one sheet, up to the
    point where the store is asked: the instruments it goes on with, in
    the order of their rows. Empty rows are passed over; rows are skipped
    until the header row is found; the first end marker after it ends the
    loop. What follows the question to the store does not change which
    rows are read, except that a response that cannot be written any more
    ends the loop as an end marker does. *)
Fixpoint read_rows (rows : list (list string)) (headerFound : bool)
    (headerMap : gmap string Z) : list instrument_row :=
  match rows with
  | [] => []
  | row :: rows' =>
      if len row =? 0 then read_rows rows' headerFound headerMap
      else if negb headerFound then
        if is_header_row row then read_rows rows' true (build_header 0 row headerMap)
        else read_rows rows' headerFound headerMap
      else if is_end_marker row then []
      else
        match read_row headerMap row with
        | Some instrument => instrument :: read_rows rows' headerFound headerMap
        | None => read_rows rows' headerFound headerMap
        end
  end.

Definition read_sheet (rows : list (list string)) : list instrument_row :=
  read_rows rows false ∅.

End Sheets.

(** ** [main.go]: the cells of a table row

    A selection of cells is given by the texts of its elements, in the
    order in which [Each] visits them, with their positions from 0. *)

(** [a[i]] on a slice of strings. *)
Definition index_string (a : list string) (i : Z) : result string :=
  if (0 <=? i) && (i <? len a)
  then Ok (nth (Z.to_nat i) a EmptyString)
  else Panic (IndexOutOfRange i (len a)).

(** [fetchCompanyData], the months of the quarterly results: the header
    cells, trimmed, without the empty ones and the dashes. *)
Definition quarter_months (headers : list string) : list string :=
  List.filter (fun month => negb (String.eqb month "") && negb (String.eqb month "-"))
    (strings.TrimSpace <$> headers).

(** [fetchCompanyData], the loop over the columns of one row of the
    quarterly results, from the column [colIndex] on. *)
Fixpoint quarter_columns (months : list string) (colIndex : Z) (cols : list string)
    (fieldData : list (gmap string string)) : result (list (gmap string string)) :=
  match cols with
  | [] => Ok fieldData
  | col :: cols' =>
      if (0 <? colIndex) && (colIndex <=? len months) then
        let value := strings.TrimSpace col in
        month ← index_string months colIndex;
        quarter_columns months (colIndex + 1) cols' (fieldData ++ [ {[ month := value ]} ])
      else quarter_columns months (colIndex + 1) cols' fieldData
  end.

Definition quarter_row (months : list string) (cols : list string)
    : result (list (gmap string string)) :=
  quarter_columns months 0 cols [].

(** [parseTable], the headers: the header cells but the first, trimmed. *)
Definition table_headers (headers : list string) : list string :=
  strings.TrimSpace <$> tail headers.

(** [parseTable], the loop over the cells of one row, from the cell [i]
    on. *)
Fixpoint table_values (headers : list string) (i : Z) (cells : list string)
    (values : gmap string string) : result (gmap string string) :=
  match cells with
  | [] => Ok values
  | cell :: cells' =>
      if (0 <? i) && (i <=? len headers) then
        date ← index_string headers (i - 1);
        table_values headers (i + 1) cells' (<[date := strings.TrimSpace cell]> values)
      else table_values headers (i + 1) cells' values
  end.

Definition table_row (headers : list string) (cells : list string)
    : result (gmap string string) :=
  table_values headers 0 cells ∅.

(** ** Reference definitions for the properties below *)



(** One comparison of the trend scorer, as a pair [(prevVal, v)], and what
    it does to the score. *)
Definition bump (score : float) (e : value * value) : float :=
  if (toFloat e.1 <? toFloat e.2)%float then (score + 5)%float
  else if (toFloat e.2 <? toFloat e.1)%float then (score - 5)%float
  else score.

(** The comparisons between two adjacent period entries: one for every
    label of the current entry that the previous entry has too, whatever
    the two values are; in the order the loop takes them. *)
Definition element_events (prev cur : gmap string value) : list (value * value) :=
  rev (omap (fun kv => (fun prevVal => (prevVal, kv.2)) <$> prev !! kv.1) (map_to_list cur)).

(** The period entries of a section: its elements that are maps. *)
Definition maps_of (quarterArray : list value) : list (gmap string value) :=
  omap (fun elem => match elem with VMap m => Some m | _ => None end) quarterArray.

Fixpoint adjacent_events (entries : list (gmap string value)) : list (value * value) :=
  match entries with
  | prev :: ((cur :: _) as rest) => element_events prev cur ++ adjacent_events rest
  | _ => []
  end.

Definition section_events (quarterData : value) : list (value * value) :=
  match quarterData with
  | VArr quarterArray => adjacent_events (maps_of quarterArray)
  | _ => []
  end.

(** Every comparison of a run of [analyzeTrend] on [data]. *)
Definition trend_events (data : gmap string value) : list (value * value) :=
  concat (section_events <$> rev (map_to_list data).*2).

(** The trend score as the specification words it: a pair of equal values
    is not a comparison. *)
Definition valid_comparison (e : value * value) : bool :=
  (toFloat e.1 <? toFloat e.2)%float || (toFloat e.2 <? toFloat e.1)%float.

Definition analyzeTrend_spec (data : gmap string value) : float :=
  let events := filter (fun e => valid_comparison e = true) (trend_events data) in
  if 0 <? len events then (foldl bump 0.0%float events / float64_of_int (len events))%float
  else 0.0%float.

(** What [toFloat] hands to [strconv.ParseFloat]. *)
Definition cleaned (str : string) : string :=
  let cleanStr := strings.ReplaceAll str "," "" in
  if strings.Contains cleanStr "%" then strings.ReplaceAll cleanStr "%" "" else cleanStr.

(** The bytes a floating-point literal of [strconv] can be made of: digits,
    letters, the signs, the dot and the underscore. *)
Definition float_byte (c : Z) : bool :=
  strconv.is_digit c
  || ((byte "a" <=? c) && (c <=? byte "z"))
  || ((byte "A" <=? c) && (c <=? byte "Z"))
  || (c =? byte "+") || (c =? byte "-") || (c =? byte ".") || (c =? byte "_").

(** A label as the financial statements have them: printable ASCII,
    without a plus sign, neither starting nor ending with a space. *)
Definition label_byte (c : Z) : bool :=
  (32 <=? c) && (c <=? 126) && negb (c =? byte "+").

Definition plain_label (s : string) : bool :=
  match bytes s with
  | [] => false
  | (c :: _) as l =>
      forallb label_byte l && negb (c =? 32) && negb (List.last l 0 =? 32)
  end.

(** A stock that beats both of two peers and the median on every count. *)
Definition ex_stock : Stock :=
  {| Name := "Acme"; PE := 5; MarketCap := 100; DividendYield := 5; ROCE := 20;
     QuarterlySales := 10; QuarterlyProfit := 10; Cons := []; Pros := [] |}.

Definition ex_peer : gmap string value :=
  list_to_map
    [("pe", VString "10"); ("market_cap", VString "50"); ("div_yield", VString "1");
     ("roce", VString "10"); ("sales_qtr", VString "5"); ("np_qtr", VString "5")].

Definition ex_median : gmap string value :=
  list_to_map
    [("pe", VString "8"); ("market_cap", VString "60"); ("div_yield", VString "2");
     ("roce", VString "12"); ("sales_qtr", VString "6"); ("np_qtr", VString "6")].

(** A section whose single label goes 1, 2, 2 over three periods. *)
Definition ex_quarters : gmap string value :=
  {[ "Sales" :=
       VArr [VMap {[ "value" := VString "1" ]};
             VMap {[ "value" := VString "2" ]};
             VMap {[ "value" := VString "2" ]}] ]}.

(** A record without any financial statement: what the store holds for an
    instrument whose page had no such section. *)
Definition ex_no_history : gmap string value :=
  {[ "name" := VString "Acme"; "marketCap" := VString "1,234" ]}.

(** A string with a byte no floating-point literal has: a comma, a percent
    sign, a space, a currency sign... *)
Definition foreign (c : Z) : bool := negb (float_byte c).

Definition has_foreign_byte (s : string) : bool :=
  existsb foreign (bytes s).

(** A string with a decimal digit somewhere. *)
Definition has_digit (s : string) : bool :=
  existsb strconv.is_digit (bytes s).

(** A record whose profit-and-loss section holds "Net Profit" under the
    no-break-space encoding of its "+" suffix. *)
Definition ex_statements : gmap string value :=
  {[ "profitLoss" :=
       VMap {[ "Net Profit" +:+ nbsp_plus := VArr [VString "10"; VString "12"; VString "15"] ]} ]}.

(** An encoding that does not start with a printable ASCII byte other
    than the space. *)
Definition outside_printable (sp : list Z) : bool :=
  match sp with
  | [] => false
  | x :: _ => (x <=? 32) || (128 <=? x)
  end.

(** A record with three years of every statement line the F-score reads. *)
Definition ex_full_history : gmap string value :=
  {[ "name" := VString "Acme";
     "profitLoss" :=
       VMap {[ "Net Profit" +:+ nbsp_plus := VArr [VString "100"; VString "120"; VString "150"];
               "Sales" +:+ nbsp_plus := VArr [VString "1,000"; VString "1,100"; VString "1,300"];
               "OPM %" := VArr [VString "10%"; VString "12%"; VString "11%"] ]};
     "balanceSheet" :=
       VMap {[ "Total Assets" := VArr [VString "2,000"; VString "2,100"];
               "Borrowings" +:+ nbsp_plus := VArr [VString "500"; VString "400"];
               "Other Assets" +:+ nbsp_plus := VArr [VString "300"; VString "350"];
               "Other Liabilities" +:+ nbsp_plus := VArr [VString "200"; VString "210"];
               "Equity Capital" := VArr [VString "50"; VString "50"] ]};
     "cashFlows" :=
       VMap {[ "Cash from Operating Activity" +:+ nbsp_plus :=
                 VArr [VString "90"; VString "130"] ]} ]}.

Definition is_string (v : value) : bool :=
  match v with
  | VString _ => true
  | _ => false
  end.

Definition is_map (v : value) : bool :=
  match v with
  | VMap _ => true
  | _ => false
  end.

Definition is_array (v : value) : bool :=
  match v with
  | VArr _ => true
  | _ => false
  end.

(** [prosConsAdjustment]: [1.0 * len(stock.Pros)] is an [int] (the
    constant [1.0] takes the type of the other operand), and it is that
    [int] which is handed to [toFloat]. *)
Definition prosConsAdjustment (stock : Stock) : float :=
  let adjustment := 0.0%float in
  let adjustment := (adjustment + toFloat (VInt (1 * len (Pros stock))))%float in
  let adjustment := (adjustment - toFloat (VInt (1 * len (Cons stock))))%float in
  adjustment.

(** A record all set for [rateStock]: one peer and the median. *)
Definition ex_rated : gmap string value :=
  {[ "name" := VString "Acme"; "stockPE" := VString "5";
     "peers" := VArr [VMap ex_peer; VMap ex_median] ]}.

(** The bytes that [toFloat] keeps. *)
Definition no_comma (b : Z) : bool := negb (44 =? b).

Definition no_percent (b : Z) : bool := negb (37 =? b).

(** No label of [cur] is a label of [prev]. *)
Definition no_shared_label (prev cur : gmap string value) : bool :=
  forallb (fun kv => match prev !! kv.1 with Some _ => false | None => true end)
    (map_to_list cur).

(** No two adjacent entries share a label. *)
Fixpoint adjacent_unrelated (entries : list (gmap string value)) : bool :=
  match entries with
  | prev :: ((cur :: _) as rest) => no_shared_label prev cur && adjacent_unrelated rest
  | _ => true
  end.

(** The quarterly results as [fetchCompanyData] files them: under each line
    item a list of one-entry maps, from month to value. *)
Definition ex_scraped_quarters : gmap string value :=
  {[ "Sales" := VArr [VMap {[ "Mar 2023" := VString "100" ]};
                      VMap {[ "Jun 2023" := VString "120" ]};
                      VMap {[ "Sep 2023" := VString "90" ]}];
     "Net Profit" := VArr [VMap {[ "Mar 2023" := VString "10" ]};
                           VMap {[ "Jun 2023" := VString "12" ]}] ]}.

(** The first byte of [l] is a plus sign. *)
Definition starts_with_plus (l : list Z) : bool :=
  match l with
  | c :: _ => 43 =? c
  | [] => false
  end.

(** A record with full history whose net profits are stored as numbers. *)
Definition ex_native_profit : gmap string value :=
  {[ "profitLoss" :=
       VMap {[ "Net Profit" +:+ nbsp_plus := VArr [VFloat64 100; VFloat64 120; VFloat64 150] ]};
     "balanceSheet" :=
       VMap {[ "Total Assets" := VArr [VString "2,000"; VString "2,100"] ]} ]}.

(** What a regular expression matches. *)
Inductive matches : regexp.regex -> list Z -> Prop :=
| MEmpty : matches regexp.Empty []
| MByte c : matches (regexp.Byte c) [c]
| MSpace c : regexp.is_space c = true -> matches regexp.Space [c]
| MAnyChar c : c <> 10 -> matches regexp.AnyChar [c]
| MCat r s u v : matches r u -> matches s v -> matches (regexp.Cat r s) (u ++ v)
| MAltL r s u : matches r u -> matches (regexp.Alt r s) u
| MAltR r s u : matches s u -> matches (regexp.Alt r s) u
| MStarNil r : matches (regexp.Star r) []
| MStarApp r u v :
    matches r u -> matches (regexp.Star r) v -> matches (regexp.Star r) (u ++ v)
| MOptNil r : matches (regexp.Opt r) []
| MOptOne r u : matches r u -> matches (regexp.Opt r) u.

(** A byte that stands for itself in a pattern. *)
Definition literal_byte (c : Z) : bool :=
  negb ((c =? byte "(") || (c =? byte ")") || (c =? byte "*") || (c =? byte "?")
        || (c =? byte ".") || (c =? 92)
        || (c =? byte "|") || (c =? byte "[") || (c =? byte "]") || (c =? byte "+")
        || (c =? byte "{") || (c =? byte "}") || (c =? byte "^") || (c =? byte "$")
        || (128 <=? c)).

(** A pattern that is a plain word. *)
Definition literal_pattern (pattern : string) : bool :=
  forallb literal_byte (bytes pattern).

(** The rows of a sheet, for the examples: what stands above the header,
    the header row, the holdings, the end marker and what follows it. *)
Definition ex_above : list (list string) := [ ["Portfolio as on March 31"; ""]; [] ].

Definition ex_header : list string :=
  ["Name of the Instrument"; "ISIN"; "Industry / Rating"; "Quantity"].

Definition ex_holdings : list (list string) :=
  [ ["Tata Steel Limited"; "INE081A01020"; "Ferrous Metals"; "100"];
    [""; "INE1"];
    ["KEC International Limited"; "INE389H01022"] ].

Definition ex_marker : list string := ["Sub Total"; ""; ""; "100"].

Definition ex_below : list (list string) := [ ["Infosys Limited"; "INE009A01021"] ].

(** The lower-casing of the examples, which are ASCII. *)
Definition ex_lower (s : string) : string := s.

(** [checkInstrumentName]: the pattern is a constant that compiles, so
    [regexp.MustCompile] returns. *)
Definition checkInstrumentName (input : string) : bool :=
  let pattern := "Name of (the )?Instrument" in
  regexp.MatchString pattern input.

(** A quarterly table for the examples: the header cells, the first of
    them empty, and a row with its label and a value for each month. *)
Definition ex_quarter_headers : list string := [""; "Mar 2023"; "Jun 2023"; "Sep 2023"].

Definition ex_quarter_row : list string := ["Sales +"; "10"; "12"; "15"].

(** The letters A to Z in lower case, every other byte as it is. *)
Definition fold_case (c : Z) : Z :=
  if (byte "A" <=? c) && (c <=? byte "Z") then c + 32 else c.

(** Go's spellings of the infinities and of NaN: "inf" and "infinity",
    with a sign or without, and "nan", in letters of any case. *)
Definition special_spellings : list string :=
  ["inf"; "+inf"; "-inf"; "infinity"; "+infinity"; "-infinity"; "nan"].

Definition special_spelling (s : string) : bool :=
  existsb (fun w => bool_decide (fold_case <$> bytes s = bytes w)) special_spellings.







(** * Properties *)

(** ** Arrays and the result monad *)

Lemma len_cons {A} (a : A) (l : list A) : len (a :: l) = 1 + len l.
Proof. unfold len. simpl length. lia. Qed.

Lemma len_nonneg {A} (a : list A) : 0 <= len a.
Proof. unfold len. lia. Qed.

Lemma len_app {A} (a b : list A) : len (a ++ b) = len a + len b.
Proof. unfold len. rewrite length_app. lia. Qed.



Lemma index_ok (a : list value) (i : Z) :
  0 <= i < len a -> index a i = Ok (nth (Z.to_nat i) a VNil).
Proof.
  intros [H0 H1]. unfold index.
  destruct (Z.leb_spec 0 i); [|lia]. destruct (Z.ltb_spec i (len a)); [|lia].
  reflexivity.
Qed.

Lemma index_panic (a : list value) (i : Z) :
  i < 0 \/ len a <= i -> index a i = Panic (IndexOutOfRange i (len a)).
Proof.
  intros H. unfold index.
  destruct (Z.leb_spec 0 i); simpl; [|reflexivity].
  destruct (Z.ltb_spec i (len a)); [lia|reflexivity].
Qed.

Lemma bind_ok {A B} (f : A -> result B) (a : A) : (Ok a ≫= f) = f a.
Proof. reflexivity. Qed.

Lemma bind_panic {A B} (f : A -> result B) (p : panic) : (Panic p ≫= f) = Panic p.
Proof. reflexivity. Qed.


(** ** The peer comparison scorer *)





(** C7: on an array of fewer than two entries the peer comparison scorer
    returns 0.0, and does not panic. *)
Theorem C7_compareWithPeers_too_few (stock : Stock) (arr : list value) :
  len arr < 2 -> compareWithPeers stock (VArr arr) = Ok 0.0%float.
Proof.
  intros H. unfold compareWithPeers.
  destruct (Z.ltb_spec (len arr) 2); [reflexivity|lia].
Qed.

Lemma C7_compareWithPeers_too_few_witness :
  compareWithPeers ex_stock (VArr [VMap ex_median]) = Ok 0.0%float.
Proof.
  apply (C7_compareWithPeers_too_few ex_stock [VMap ex_median]).
  vm_compute. reflexivity.
Defined.

(** ** The trend scorer *)

Lemma trend_key_bump (prev : gmap string value) (kvs : list (string * value)) (st : float * Z) :
  let events :=
    rev (omap (fun kv => (fun prevVal => (prevVal, kv.2)) <$> prev !! kv.1) kvs) in
  foldr (uncurry (trend_key prev)) st kvs = (foldl bump st.1 events, st.2 + len events).
Proof.
  induction kvs as [|[key v] kvs IH]; simpl.
  - destruct st; simpl. f_equal. unfold len; simpl; lia.
  - simpl in IH. rewrite IH. unfold trend_key at 1. simpl.
    destruct (prev !! key) as [prevVal|]; simpl.
    + rewrite foldl_app, len_app. simpl. f_equal.
      change (len [(prevVal, v)]) with 1. rewrite Z.add_assoc. reflexivity.
    + reflexivity.
Qed.

Lemma map_fold_trend_key (prev cur : gmap string value) (st : float * Z) :
  map_fold (trend_key prev) st cur
  = (foldl bump st.1 (element_events prev cur), st.2 + len (element_events prev cur)).
Proof. rewrite map_fold_foldr. apply trend_key_bump. Qed.

(** The loop over a section: with [prevElem] the last entry seen, the
    comparisons made are those of the adjacent entries from it on. *)
Lemma trend_array_events (quarterArray : list value) :
  forall (i : Z) (prevElem : option (gmap string value)) (st : float * Z),
    0 <= i -> (prevElem <> None -> 0 < i) ->
    let events := adjacent_events (option_list prevElem ++ maps_of quarterArray) in
    trend_array i quarterArray prevElem st
    = (foldl bump st.1 events, st.2 + len events).
Proof.
  induction quarterArray as [|elem rest IH]; intros i prevElem st Hi Hprev; simpl.
  - destruct prevElem; destruct st; simpl; f_equal; unfold len; simpl; lia.
  - assert (Hskip :
      (forall m, elem <> VMap m) ->
      trend_array (i + 1) rest prevElem st
      = (foldl bump st.1 (adjacent_events (option_list prevElem ++ maps_of rest)),
         st.2 + len (adjacent_events (option_list prevElem ++ maps_of rest)))).
    { intros _. apply IH; [lia|intros; lia]. }
    destruct elem as [| | | | |elemMap|]; try (apply Hskip; intros; discriminate).
    clear Hskip. simpl.
    destruct prevElem as [prev|]; simpl.
    + destruct (Z.ltb_spec 0 i) as [_|Hle]; [|specialize (Hprev ltac:(discriminate)); lia].
      rewrite map_fold_trend_key.
      rewrite (IH (i + 1) (Some elemMap)) by (try lia; intros; lia).
      simpl. rewrite foldl_app, len_app. f_equal. lia.
    + rewrite (IH (i + 1) (Some elemMap)) by (try lia; intros; lia).
      reflexivity.
Qed.

Lemma trend_section_events (sections : list (string * value)) (st : float * Z) :
  let events := concat (section_events <$> rev sections.*2) in
  foldr (uncurry trend_section) st sections = (foldl bump st.1 events, st.2 + len events).
Proof.
  induction sections as [|[key quarterData] sections IH]; simpl.
  - destruct st; simpl; f_equal; unfold len; simpl; lia.
  - simpl in IH. rewrite IH. rewrite fmap_app, concat_app, foldl_app, len_app. simpl.
    rewrite app_nil_r.
    unfold trend_section.
    destruct quarterData as [| | | |quarterArray| |]; simpl;
      try (change (len (@nil (value * value))) with 0; rewrite Z.add_0_r; reflexivity).
    rewrite (trend_array_events quarterArray 0 None) by (try lia; intros H; contradiction).
    simpl. rewrite Z.add_assoc. reflexivity.
Qed.

(** C4, as the code has it: every label that two adjacent period entries
    of a section share is one comparison, worth +5 when the value rose,
    -5 when it fell and 0 when it stayed, equal values included in the
    count; a label missing on either side is no comparison. The score is
    the total divided by the number of comparisons, and 0.0 when there is
    none. *)
Theorem C4_analyzeTrend_counts_every_shared_label (stock : Stock) (data : gmap string value) :
  analyzeTrend stock (VMap data)
  = if 0 <? len (trend_events data)
    then (foldl bump 0.0%float (trend_events data)
          / float64_of_int (len (trend_events data)))%float
    else 0.0%float.
Proof.
  unfold analyzeTrend. rewrite map_fold_foldr, trend_section_events. simpl.
  reflexivity.
Qed.

(** C4 as stated fails: a label that goes 1, 2, 2 has two comparisons in
    the code, the equal pair being counted, so the score is 5 / 2 = 2.5,
    where the claim counts one comparison and gives 5. *)
Lemma C4_counterexample :
  analyzeTrend ex_stock (VMap ex_quarters) = 2.5%float
  /\ analyzeTrend_spec ex_quarters = 5%float
  /\ analyzeTrend ex_stock (VMap ex_quarters) <> analyzeTrend_spec ex_quarters.
Proof.
  assert (H1 : analyzeTrend ex_stock (VMap ex_quarters) = 2.5%float)
    by (vm_compute; reflexivity).
  assert (H2 : analyzeTrend_spec ex_quarters = 5%float) by (vm_compute; reflexivity).
  split; [exact H1|]. split; [exact H2|].
  rewrite H1, H2. intros E.
  assert (F : (2.5 =? 5)%float = true) by (rewrite E; reflexivity).
  vm_compute in F. discriminate.
Qed.

(** ** The F-score *)

Lemma bind_inv {A B} (r : result A) (f : A -> result B) (b : B) :
  (r ≫= f) = Ok b -> exists a, r = Ok a /\ f a = Ok b.
Proof. destruct r as [a|p]; simpl; intros H; [eauto|discriminate]. Qed.

Lemma bind_panics {A B} (r : result A) (f : A -> result B) :
  (forall a, exists p, f a = Panic p) -> exists p, (r ≫= f) = Panic p.
Proof. intros H. destruct r as [a|p]; simpl; [apply H|eauto]. Qed.

(** Taking a successful run of monadic code apart. *)
Ltac inv_run :=
  repeat match goal with
  | H : mbind _ _ = Ok _ |- _ =>
      apply bind_inv in H; let a := fresh "a" in let E := fresh "E" in
      destruct H as (a & E & H)
  | H : (if ?c then _ else _) = Ok _ |- _ => destruct c eqn:?
  | H : Ok _ = Ok _ |- _ => injection H as H
  | H : Panic _ = Ok _ |- _ => discriminate H
  end.

Ltac split_ifs :=
  repeat match goal with
  | H : context [if ?c then _ else _] |- _ => destruct c
  | |- context [if ?c then _ else _] => destruct c
  end.

Ltac forget_fields :=
  repeat match goal with
  | |- context [getNestedArrayField ?s ?p] =>
      let a := fresh "arr" in generalize (getNestedArrayField s p); intros a
  end.

(** The leverage and the efficiency checks are guarded: they return, and
    within their ranges. *)
Lemma calculateLeverageScore_range (stock : gmap string value) :
  exists n, calculateLeverageScore stock = Ok n /\ 0 <= n <= 3.
Proof.
  unfold calculateLeverageScore. forget_fields.
  repeat match goal with
  | |- context [if ?c then _ else _] =>
      lazymatch c with
      | context [len] =>
          let E := fresh "E" in
          destruct c eqn:E;
          [ repeat (apply andb_prop in E; destruct E as [? E]);
            repeat match goal with H : (_ <? _) = true |- _ => apply Z.ltb_lt in H end;
            rewrite ?index_ok by lia; rewrite ?bind_ok
          | rewrite ?bind_ok ]
      end
  end;
  (eexists; split; [reflexivity|split_ifs; lia]).
Qed.

Lemma calculateOperatingEfficiencyScore_range (stock : gmap string value) :
  exists n, calculateOperatingEfficiencyScore stock = Ok n /\ 0 <= n <= 2.
Proof.
  unfold calculateOperatingEfficiencyScore. forget_fields.
  repeat match goal with
  | |- context [if ?c then _ else _] =>
      lazymatch c with
      | context [len] =>
          let E := fresh "E" in
          destruct c eqn:E;
          [ repeat (apply andb_prop in E; destruct E as [? E]);
            repeat match goal with H : (_ <? _) = true |- _ => apply Z.ltb_lt in H end;
            rewrite ?index_ok by lia; rewrite ?bind_ok
          | rewrite ?bind_ok ]
      end
  end;
  (eexists; split; [reflexivity|split_ifs; lia]).
Qed.

(** The profitability check, when it returns, is within its range. *)
Lemma calculateProfitabilityScore_range (stock : gmap string value) (n : Z) :
  calculateProfitabilityScore stock = Ok n -> 0 <= n <= 4.
Proof.
  unfold calculateProfitabilityScore. forget_fields. intros H.
  inv_run; subst; split_ifs; lia.
Qed.

Lemma generateFScore_range (stock : gmap string value) (n : Z) :
  generateFScore stock = Ok n -> 0 <= n <= 9.
Proof.
  unfold generateFScore. intros H.
  apply bind_inv in H. destruct H as (p & Hp & H).
  apply bind_inv in H. destruct H as (l & Hl & H).
  apply bind_inv in H. destruct H as (o & Ho & H).
  injection H as H.
  apply calculateProfitabilityScore_range in Hp.
  destruct (calculateLeverageScore_range stock) as (l' & El & Rl).
  destruct (calculateOperatingEfficiencyScore_range stock) as (o' & Eo & Ro).
  rewrite El in Hl. rewrite Eo in Ho. injection Hl as ->. injection Ho as ->.
  lia.
Qed.

(** With three years of string entries the profitability check returns:
    the missing guard is all that stands between it and its range. *)
Lemma assert_string_nth (a : list value) (i : Z) :
  forallb is_string a = true -> 0 <= i < len a ->
  exists s, (index a i ≫= assert_string) = Ok s.
Proof.
  intros Ha Hi. rewrite index_ok by exact Hi. rewrite bind_ok.
  rewrite forallb_forall in Ha.
  assert (Hin : In (nth (Z.to_nat i) a VNil) a).
  { apply nth_In. unfold len in Hi. lia. }
  specialize (Ha _ Hin). destruct (nth (Z.to_nat i) a VNil); try discriminate.
  simpl. eauto.
Qed.

Lemma increaseInRoa_returns (netProfit totalAssets : list value) :
  3 <= len netProfit -> 2 <= len totalAssets ->
  forallb is_string netProfit = true -> forallb is_string totalAssets = true ->
  exists b, increaseInRoa netProfit totalAssets = Ok b.
Proof.
  intros Hn Ht Sn St. unfold increaseInRoa.
  destruct (assert_string_nth netProfit (len netProfit - 2) Sn ltac:(lia)) as (np2 & ->).
  destruct (assert_string_nth totalAssets (len totalAssets - 1) St ltac:(lia)) as (ta1 & ->).
  destruct (assert_string_nth netProfit (len netProfit - 3) Sn ltac:(lia)) as (np3 & ->).
  destruct (assert_string_nth totalAssets (len totalAssets - 2) St ltac:(lia)) as (ta2 & ->).
  rewrite !bind_ok. eauto.
Qed.

Lemma calculateProfitabilityScore_returns (stock : gmap string value) :
  let netProfit := getNestedArrayField stock ["profitLoss"; "Net Profit +"] in
  let totalAssets := getNestedArrayField stock ["balanceSheet"; "Total Assets"] in
  3 <= len netProfit -> 2 <= len totalAssets ->
  forallb is_string netProfit = true -> forallb is_string totalAssets = true ->
  exists n, calculateProfitabilityScore stock = Ok n /\ 0 <= n <= 4.
Proof.
  intros netProfit totalAssets Hn Ht Sn St.
  assert (H : exists n, calculateProfitabilityScore stock = Ok n).
  { unfold calculateProfitabilityScore. fold netProfit totalAssets.
    generalize (getNestedArrayField stock ["cashFlows"; "Cash from Operating Activity +"]).
    intros cashFlowOps.
    destruct (Z.ltb_spec 0 (len netProfit)); [|lia].
    destruct (Z.ltb_spec 0 (len totalAssets)); [|lia].
    destruct (Z.ltb_spec 1 (len netProfit)); [|lia].
    cbn [andb].
    destruct (assert_string_nth netProfit (len netProfit - 2) Sn ltac:(lia)) as (np2 & ->).
    destruct (assert_string_nth totalAssets (len totalAssets - 1) St ltac:(lia)) as (ta1 & ->).
    destruct (increaseInRoa_returns netProfit totalAssets Hn Ht Sn St) as (b & ->).
    rewrite (index_ok netProfit) by lia.
    rewrite !bind_ok.
    destruct (Z.ltb_spec 1 (len cashFlowOps));
      destruct (Z.ltb_spec 0 (len cashFlowOps)); try lia;
      rewrite ?index_ok by lia; rewrite ?bind_ok; cbn [andb]; eauto. }
  destruct H as (n & H). exists n. split; [exact H|].
  apply (calculateProfitabilityScore_range stock n H).
Qed.

(** A record with full history gets all nine points. *)
Lemma generateFScore_full_history :
  calculateProfitabilityScore ex_full_history = Ok 4
  /\ calculateLeverageScore ex_full_history = Ok 3
  /\ calculateOperatingEfficiencyScore ex_full_history = Ok 2
  /\ generateFScore ex_full_history = Ok 9.
Proof. repeat split; vm_compute; reflexivity. Qed.

(** [increaseInRoa] has no guard: it panics whenever the net-profit
    sequence has fewer than three entries or the total-assets sequence
    fewer than two. *)
Lemma increaseInRoa_panics (netProfit totalAssets : list value) :
  len netProfit < 3 \/ len totalAssets < 2 ->
  exists p, increaseInRoa netProfit totalAssets = Panic p.
Proof.
  intros H. unfold increaseInRoa.
  apply bind_panics. intros np2. apply bind_panics. intros ta1.
  destruct H as [H|H].
  - rewrite (index_panic netProfit (len netProfit - 3)) by lia.
    rewrite !bind_panic. eauto.
  - apply bind_panics. intros np3.
    rewrite (index_panic totalAssets (len totalAssets - 2)) by lia.
    rewrite !bind_panic. eauto.
Qed.

(** C2, at the code: the profitability checks do not score insufficient
    history as 0. Whenever "Net Profit +" has fewer than three entries or
    "Total Assets" has fewer than two, [calculateProfitabilityScore]
    panics (an index out of range, or a failed assertion before it), and
    so does the F-score. *)
Theorem C2_profitability_panics_on_short_history (stock : gmap string value) :
  len (getNestedArrayField stock ["profitLoss"; "Net Profit +"]) < 3
  \/ len (getNestedArrayField stock ["balanceSheet"; "Total Assets"]) < 2 ->
  (exists p, calculateProfitabilityScore stock = Panic p)
  /\ (exists p, generateFScore stock = Panic p).
Proof.
  intros H.
  assert (Hp : exists p, calculateProfitabilityScore stock = Panic p).
  { unfold calculateProfitabilityScore.
    apply bind_panics. intros s1. apply bind_panics. intros s2.
    destruct (increaseInRoa_panics _ _ H) as (p & ->). rewrite bind_panic. eauto. }
  split; [exact Hp|].
  destruct Hp as (p & Hp). unfold generateFScore. rewrite Hp, bind_panic. eauto.
Qed.

Lemma C2_profitability_panics_on_short_history_witness :
  (exists p, calculateProfitabilityScore ex_no_history = Panic p)
  /\ (exists p, generateFScore ex_no_history = Panic p).
Proof.
  apply (C2_profitability_panics_on_short_history ex_no_history).
  left. vm_compute. reflexivity.
Defined.

(** C6, at the code: on a record without history the F-score calculator
    returns no integer; it panics with an index out of range in
    [increaseInRoa]. ([generateFScore_range] is the part that holds: a
    returned F-score is in [0, 9].) *)
Theorem C6_generateFScore_panics_without_history :
  generateFScore ex_no_history = Panic (IndexOutOfRange (-2) 0).
Proof. vm_compute. reflexivity. Qed.

(** ** [strconv.ParseFloat]: what it rejects *)

Ltac byte_consts :=
  repeat match goal with
  | |- context [byte ?c] =>
      let v := eval vm_compute in (byte c) in change (byte c) with v
  | H : context [byte ?c] |- _ =>
      let v := eval vm_compute in (byte c) in change (byte c) with v in H
  end.

(** Case analysis on every integer comparison in sight. *)
Ltac zcases :=
  repeat match goal with
  | H : context [?a =? ?b] |- _ => destruct (Z.eqb_spec a b); simpl in H; try lia
  | H : context [?a <=? ?b] |- _ => destruct (Z.leb_spec a b); simpl in H; try lia
  | H : context [?a <? ?b] |- _ => destruct (Z.ltb_spec a b); simpl in H; try lia
  | |- context [?a =? ?b] => destruct (Z.eqb_spec a b); simpl; try lia
  | |- context [?a <=? ?b] => destruct (Z.leb_spec a b); simpl; try lia
  | |- context [?a <? ?b] => destruct (Z.ltb_spec a b); simpl; try lia
  end; try discriminate; try reflexivity; try lia.

Lemma land_32 (c : Z) : Z.land c 32 = if Z.testbit c 5 then 32 else 0.
Proof.
  assert (H32 : forall n, 0 <= n -> Z.testbit 32 n = (5 =? n)).
  { intros n Hn. change 32 with (2 ^ 5). apply Z.pow2_bits_eqb. lia. }
  apply Z.bits_inj'. intros n Hn. rewrite Z.land_spec, H32 by lia.
  destruct (Z.eqb_spec 5 n) as [<-|Hne].
  - destruct (Z.testbit c 5); [reflexivity|now rewrite Z.bits_0].
  - rewrite andb_false_r. destruct (Z.testbit c 5).
    + rewrite H32 by lia. symmetry. now apply Z.eqb_neq.
    + now rewrite Z.bits_0.
Qed.

Lemma lower_cases (c : Z) : strconv.lower c = c \/ strconv.lower c = c + 32.
Proof.
  unfold strconv.lower. pose proof (Z.add_lor_land c 32) as H.
  rewrite land_32 in H. destruct (Z.testbit c 5); lia.
Qed.

Lemma is_digit_float_byte (c : Z) : strconv.is_digit c = true -> float_byte c = true.
Proof. unfold float_byte. intros ->. reflexivity. Qed.

Lemma is_hex_letter_float_byte (c : Z) :
  strconv.is_hex_letter c = true -> float_byte c = true.
Proof.
  unfold strconv.is_hex_letter, float_byte, strconv.is_digit.
  destruct (lower_cases c) as [-> | ->]; byte_consts; intros H; zcases.
Qed.

Lemma foreign_tail (c : Z) (s : list Z) :
  float_byte c = true -> existsb foreign (c :: s) = true -> existsb foreign s = true.
Proof. unfold foreign at 1. simpl. intros ->. simpl. trivial. Qed.

Lemma foreign_nonempty (s : list Z) : existsb foreign s = true -> 0 < len s.
Proof. destruct s; [discriminate|]. unfold len; simpl; lia. Qed.

Lemma eqb_float_byte (c d : Z) :
  (c =? d) = true -> float_byte d = true -> float_byte c = true.
Proof. intros H. apply Z.eqb_eq in H. now subst. Qed.

(** The comparison of a prefix stops at a foreign byte at the latest. *)
Lemma commonPrefixLen_lt (s prefix : list Z) :
  forallb float_byte prefix = true -> existsb foreign s = true ->
  strconv.commonPrefixLenIgnoreCase s prefix < len s.
Proof.
  revert prefix. induction s as [|c s IH]; intros prefix Hp Hs; [discriminate|].
  destruct prefix as [|x prefix]; simpl.
  - unfold len; simpl; lia.
  - simpl in Hp. apply andb_prop in Hp. destruct Hp as [Hx Hp].
    match goal with |- context [if ?b =? x then _ else _] => destruct (Z.eqb_spec b x) as [E|E] end.
    + assert (Hc : float_byte c = true).
      { revert E Hx. unfold float_byte, strconv.is_digit. byte_consts.
        intros E Hx. zcases. }
      apply (foreign_tail c s Hc) in Hs. specialize (IH prefix Hp Hs).
      unfold len in *; simpl; lia.
    + unfold len; simpl; lia.
Qed.

Lemma inf_prefix_lt (s : list Z) (neg : bool) (nsign : Z) (f : float) (n : Z) :
  existsb foreign s = true ->
  strconv.inf_prefix s neg nsign = Some (f, n) -> n < nsign + len s.
Proof.
  intros Hs. unfold strconv.inf_prefix.
  pose proof (commonPrefixLen_lt s (bytes "infinity") eq_refl Hs) as Hlt.
  revert Hlt. generalize (strconv.commonPrefixLenIgnoreCase s (bytes "infinity")).
  intros k Hlt H.
  destruct ((3 <? k) && (k <? 8)) eqn:E1.
  - apply andb_prop in E1. destruct E1 as [E1 _]. apply Z.ltb_lt in E1.
    simpl in H. injection H as _ <-. lia.
  - destruct ((k =? 3) || (k =? 8)) eqn:E2; [|discriminate].
    injection H as _ <-. lia.
Qed.

Lemma special_lt (s : list Z) (f : float) (n : Z) :
  existsb foreign s = true -> strconv.special s = Some (f, n) -> n < len s.
Proof.
  intros Hs. destruct s as [|c s]; [discriminate|]. unfold strconv.special.
  destruct ((c =? byte "+") || (c =? byte "-")) eqn:Esign.
  - intros H. assert (Hc : float_byte c = true).
    { revert Esign. unfold float_byte, strconv.is_digit. byte_consts. intros Esign. zcases. }
    apply (foreign_tail c s Hc) in Hs. apply (inf_prefix_lt s _ 1 f n Hs) in H.
    unfold len in *; simpl; lia.
  - destruct ((c =? byte "i") || (c =? byte "I")) eqn:Ei.
    + intros H. apply (inf_prefix_lt (c :: s) _ 0 f n Hs) in H. lia.
    + destruct ((c =? byte "n") || (c =? byte "N")) eqn:En; [|discriminate].
      pose proof (commonPrefixLen_lt (c :: s) (bytes "nan") eq_refl Hs) as Hlt.
      destruct (Z.eqb_spec (strconv.commonPrefixLenIgnoreCase (c :: s) (bytes "nan")) 3)
        as [E|E]; [|discriminate].
      intros H. injection H as _ <-. lia.
Qed.

(** The digit loop reads no foreign byte. *)
Lemma read_digits_foreign (hex : bool) (s : list Z) :
  forall st, existsb foreign s = true ->
    existsb foreign (strconv.read_digits hex s st).2 = true.
Proof.
  induction s as [|c s IH]; intros st Hs; [discriminate|].
  simpl strconv.read_digits.
  destruct (c =? byte "_") eqn:E1.
  { apply IH, (foreign_tail c); [eapply eqb_float_byte; [exact E1|reflexivity]|exact Hs]. }
  destruct (c =? byte ".") eqn:E2.
  { destruct (strconv.sawdot st); [exact Hs|].
    apply IH, (foreign_tail c); [eapply eqb_float_byte; [exact E2|reflexivity]|exact Hs]. }
  destruct (strconv.is_digit c) eqn:E3.
  { apply is_digit_float_byte in E3. apply (foreign_tail c s E3) in Hs.
    destruct ((c =? byte "0") && (strconv.nd st =? 0)); apply IH, Hs. }
  destruct (hex && strconv.is_hex_letter c) eqn:E4; [|exact Hs].
  apply andb_prop in E4. destruct E4 as [_ E4].
  apply is_hex_letter_float_byte in E4. apply IH, (foreign_tail c s E4 Hs).
Qed.

Lemma read_exp_foreign (s : list Z) :
  forall e us, existsb foreign s = true ->
    existsb foreign (strconv.read_exp s e us).2 = true.
Proof.
  induction s as [|c s IH]; intros e us Hs; [discriminate|].
  simpl strconv.read_exp.
  destruct (strconv.is_digit c) eqn:E1.
  { apply IH, (foreign_tail c s (is_digit_float_byte c E1) Hs). }
  destruct (c =? byte "_") eqn:E2; [|exact Hs].
  apply IH, (foreign_tail c); [eapply eqb_float_byte; [exact E2|reflexivity]|exact Hs].
Qed.

Lemma read_sign_foreign (s : list Z) :
  existsb foreign s = true -> existsb foreign (strconv.read_sign s).2 = true.
Proof.
  intros Hs. destruct s as [|c s]; [discriminate|]. unfold strconv.read_sign.
  destruct (c =? byte "+") eqn:E1.
  { apply (foreign_tail c); [eapply eqb_float_byte; [exact E1|reflexivity]|exact Hs]. }
  destruct (c =? byte "-") eqn:E2; [|exact Hs].
  apply (foreign_tail c); [eapply eqb_float_byte; [exact E2|reflexivity]|exact Hs].
Qed.

Lemma lower_x_float_byte (c : Z) : (strconv.lower c =? byte "x") = true -> float_byte c = true.
Proof.
  unfold float_byte, strconv.is_digit.
  destruct (lower_cases c) as [-> | ->]; byte_consts; intros H; zcases.
Qed.

Lemma read_base_foreign (s : list Z) :
  existsb foreign s = true -> existsb foreign (strconv.read_base s).2 = true.
Proof.
  intros Hs. unfold strconv.read_base.
  destruct s as [|c0 [|c1 [|c2 s]]]; try exact Hs.
  destruct ((c0 =? byte "0") && (strconv.lower c1 =? byte "x")) eqn:E; [|exact Hs].
  apply andb_prop in E. destruct E as [E0 E1].
  apply (foreign_tail c1); [apply lower_x_float_byte, E1|].
  apply (foreign_tail c0); [eapply eqb_float_byte; [exact E0|reflexivity]|exact Hs].
Qed.

Lemma lower_exp_float_byte (hex : bool) (c : Z) :
  (strconv.lower c =? (if hex then byte "p" else byte "e")) = true -> float_byte c = true.
Proof.
  unfold float_byte, strconv.is_digit.
  destruct hex; destruct (lower_cases c) as [-> | ->]; byte_consts; intros H; zcases.
Qed.

Lemma read_exponent_foreign (hex : bool) (dp : Z) (us : bool) (s : list Z)
    (dp' : Z) (us' : bool) (rest : list Z) :
  existsb foreign s = true ->
  strconv.read_exponent hex dp us s = Some (dp', us', rest) ->
  existsb foreign rest = true.
Proof.
  intros Hs. destruct s as [|c s1]; [discriminate|]. unfold strconv.read_exponent.
  destruct (strconv.lower c =? (if hex then byte "p" else byte "e")) eqn:Ee.
  - apply lower_exp_float_byte in Ee. apply (foreign_tail c s1 Ee) in Hs.
    destruct s1 as [|d s2]; [discriminate|].
    assert (Hs3 : existsb foreign
              (if d =? byte "+" then (1, s2)
               else if d =? byte "-" then (-1, s2) else (1, d :: s2)).2 = true).
    { destruct (d =? byte "+") eqn:E1.
      { apply (foreign_tail d); [eapply eqb_float_byte; [exact E1|reflexivity]|exact Hs]. }
      destruct (d =? byte "-") eqn:E2; [|exact Hs].
      apply (foreign_tail d); [eapply eqb_float_byte; [exact E2|reflexivity]|exact Hs]. }
    destruct (if d =? byte "+" then (1, s2)
              else if d =? byte "-" then (-1, s2) else (1, d :: s2)) as [esign s3].
    simpl in Hs3. destruct s3 as [|d' s3']; [discriminate|].
    destruct (strconv.is_digit d'); [|discriminate].
    pose proof (read_exp_foreign (d' :: s3') 0 us Hs3) as Hr.
    destruct (strconv.read_exp (d' :: s3') 0 us) as [[e us1] s4]. simpl in Hr.
    intros H. injection H as _ _ <-. exact Hr.
  - destruct hex; [discriminate|]. intros H. injection H as _ _ <-. exact Hs.
Qed.

(** [readFloat] stops before a foreign byte. *)
Lemma readFloat_lt (s : list Z) (l : strconv.literal) :
  existsb foreign s = true -> strconv.readFloat s = Some l -> strconv.lit_n l < len s.
Proof.
  intros Hs. unfold strconv.readFloat.
  pose proof (read_sign_foreign s Hs) as H1.
  destruct (strconv.read_sign s) as [neg s1]. simpl in H1.
  pose proof (read_base_foreign s1 H1) as H2.
  destruct (strconv.read_base s1) as [hex s2]. simpl in H2.
  match goal with |- context [strconv.read_digits hex s2 ?st0] =>
    pose proof (read_digits_foreign hex s2 st0 H2) as H3;
    destruct (strconv.read_digits hex s2 st0) as [st s3]
  end.
  simpl in H3.
  destruct (negb (strconv.sawdigits st)); [discriminate|].
  match goal with |- context [strconv.read_exponent ?h ?d ?u ?x] =>
    destruct (strconv.read_exponent h d u x) as [[[dp1 us] rest]|] eqn:E; [|discriminate]
  end.
  apply read_exponent_foreign in E; [|exact H3].
  apply foreign_nonempty in E.
  match goal with |- context [if ?b then None else _] => destruct b; [discriminate|] end.
  intros H. injection H as <-. simpl. lia.
Qed.

(** A string with a foreign byte is a syntax error, with value 0. *)
Lemma ParseFloat_foreign (s : string) :
  has_foreign_byte s = true -> strconv.ParseFloat s = (0%float, Some strconv.ErrSyntax).
Proof.
  unfold has_foreign_byte. intros Hs. unfold strconv.ParseFloat, strconv.parseFloatPrefix.
  destruct (strconv.special (bytes s)) as [[f n]|] eqn:Esp.
  - apply special_lt in Esp; [|exact Hs].
    destruct (Z.eqb_spec n (len (bytes s))); [lia|reflexivity].
  - destruct (strconv.readFloat (bytes s)) as [l|] eqn:Erf; [|reflexivity].
    apply readFloat_lt in Erf; [|exact Hs].
    destruct (is_infinity (strconv.literal_value l));
      (destruct (Z.eqb_spec (strconv.lit_n l) (len (bytes s))); [lia|reflexivity]).
Qed.

(** The value that comes with a syntax error is 0. *)
Lemma ParseFloat_syntax_zero (s : string) (f : float) :
  strconv.ParseFloat s = (f, Some strconv.ErrSyntax) -> f = 0%float.
Proof.
  unfold strconv.ParseFloat, strconv.parseFloatPrefix.
  destruct (strconv.special (bytes s)) as [[f' n]|].
  - destruct (n =? len (bytes s)); intros H; injection H; intros; try discriminate;
      subst; reflexivity.
  - destruct (strconv.readFloat (bytes s)) as [l|].
    + destruct (is_infinity (strconv.literal_value l));
        (destruct (strconv.lit_n l =? len (bytes s)); intros H; injection H; intros;
         try discriminate; subst; reflexivity).
    + intros H. injection H as <-. reflexivity.
Qed.

(** Without a digit there is no number: only the words of [special] are
    accepted. *)
Lemma read_digits_no_digit (s : list Z) :
  forall st, existsb strconv.is_digit s = false -> strconv.sawdigits st = false ->
    strconv.sawdigits (strconv.read_digits false s st).1 = false.
Proof.
  induction s as [|c s IH]; intros st Hs Hst; [exact Hst|].
  simpl in Hs. apply orb_false_elim in Hs. destruct Hs as [Hc Hs].
  simpl strconv.read_digits.
  destruct (c =? byte "_"); [apply IH; [exact Hs|exact Hst]|].
  destruct (c =? byte ".").
  { destruct (strconv.sawdot st); [exact Hst|apply IH; [exact Hs|exact Hst]]. }
  rewrite Hc. simpl. exact Hst.
Qed.

Lemma readFloat_no_digit (s : list Z) :
  existsb strconv.is_digit s = false -> strconv.readFloat s = None.
Proof.
  intros Hs. unfold strconv.readFloat.
  assert (H1 : existsb strconv.is_digit (strconv.read_sign s).2 = false).
  { unfold strconv.read_sign. destruct s as [|c s]; [reflexivity|].
    simpl in Hs. apply orb_false_elim in Hs. destruct Hs as [Hc Hs'].
    destruct (c =? byte "+"); [exact Hs'|]. destruct (c =? byte "-"); [exact Hs'|].
    simpl. now rewrite Hc. }
  destruct (strconv.read_sign s) as [neg s1]. simpl in H1.
  assert (H2 : strconv.read_base s1 = (false, s1)).
  { unfold strconv.read_base. destruct s1 as [|c0 [|c1 [|c2 s1]]]; try reflexivity.
    simpl in H1. apply orb_false_elim in H1. destruct H1 as [Hc0 _].
    destruct (Z.eqb_spec c0 (byte "0")) as [->|]; [discriminate|reflexivity]. }
  rewrite H2.
  match goal with |- context [strconv.read_digits false s1 ?st0] =>
    pose proof (read_digits_no_digit s1 st0 H1 eq_refl) as H3;
    destruct (strconv.read_digits false s1 st0) as [st s3]
  end.
  simpl in H3. rewrite H3. reflexivity.
Qed.

Lemma ParseFloat_no_digit (s : string) :
  has_digit s = false -> strconv.special (bytes s) = None ->
  strconv.ParseFloat s = (0%float, Some strconv.ErrSyntax).
Proof.
  unfold has_digit. intros Hd Hsp. unfold strconv.ParseFloat, strconv.parseFloatPrefix.
  rewrite Hsp, (readFloat_no_digit _ Hd). reflexivity.
Qed.

(** ** Strings and their bytes *)

Lemma bytes_range (s : string) : Forall (fun c => 0 <= c < 256) (bytes s).
Proof.
  induction s as [|a s IH]; constructor; [|exact IH].
  unfold byte. pose proof (N_ascii_bounded a). lia.
Qed.

Lemma bytes_of_bytes (l : list Z) :
  Forall (fun c => 0 <= c < 256) l -> bytes (of_bytes l) = l.
Proof.
  induction 1 as [|c l Hc _ IH]; simpl; [reflexivity|].
  rewrite IH. f_equal. unfold byte.
  rewrite N_ascii_embedding by lia. lia.
Qed.

Lemma of_bytes_bytes (s : string) : of_bytes (bytes s) = s.
Proof.
  induction s as [|a s IH]; simpl; [reflexivity|].
  rewrite IH. f_equal. unfold byte. rewrite N2Z.id. apply ascii_N_embedding.
Qed.

(** Replacing by nothing only removes bytes. *)
Lemma replace_bytes_nil_Forall (P : Z -> Prop) (old : list Z) (l : list Z) :
  forall skip, Forall P l -> Forall P (strings.replace_bytes old [] skip l).
Proof.
  induction l as [|b l IH]; intros skip H; simpl; [constructor|].
  inversion H as [|? ? Hb Hl]; subst.
  destruct skip as [|k]; [|apply IH, Hl].
  destruct (is_prefix old (b :: l)); simpl; [apply IH, Hl|constructor; [exact Hb|apply IH, Hl]].
Qed.

Lemma bytes_ReplaceAll_nil (s old : string) :
  bytes (strings.ReplaceAll s old "") = strings.replace_bytes (bytes old) [] O (bytes s).
Proof.
  unfold strings.ReplaceAll. simpl (bytes ""). apply bytes_of_bytes.
  apply replace_bytes_nil_Forall, bytes_range.
Qed.

Lemma existsb_false_Forall {A} (p : A -> bool) (l : list A) :
  existsb p l = false <-> Forall (fun c => p c = false) l.
Proof.
  induction l as [|a l IH]; simpl.
  - split; [constructor|reflexivity].
  - rewrite orb_false_iff, IH. split.
    + intros [Ha Hl]. constructor; assumption.
    + intros H. inversion H; subst. split; assumption.
Qed.

Lemma has_digit_cleaned (s : string) : has_digit s = false -> has_digit (cleaned s) = false.
Proof.
  unfold has_digit, cleaned. rewrite !existsb_false_Forall. intros H.
  assert (H1 : Forall (fun c => strconv.is_digit c = false)
                 (bytes (strings.ReplaceAll s "," ""))).
  { rewrite bytes_ReplaceAll_nil. apply replace_bytes_nil_Forall, H. }
  destruct (strings.Contains (strings.ReplaceAll s "," "") "%"); [|exact H1].
  rewrite bytes_ReplaceAll_nil. apply replace_bytes_nil_Forall, H1.
Qed.

(** A string that contains the one-byte string [c] has the byte [c]. *)
Lemma contains_byte (c : Z) (l : list Z) :
  strings.contains_bytes [c] l = true -> existsb (Z.eqb c) l = true.
Proof.
  induction l as [|b l IH]; simpl; [discriminate|].
  rewrite andb_true_r. destruct (c =? b); simpl; [reflexivity|exact IH].
Qed.

Lemma existsb_impl {A} (p q : A -> bool) (l : list A) :
  (forall a, p a = true -> q a = true) -> existsb p l = true -> existsb q l = true.
Proof.
  intros Hpq. induction l as [|a l IH]; simpl; [trivial|].
  intros H. apply orb_prop in H. destruct H as [H|H].
  - rewrite (Hpq a H). reflexivity.
  - rewrite (IH H). apply orb_true_r.
Qed.

Lemma Contains_foreign (s sep : string) (c : Z) :
  bytes sep = [c] -> foreign c = true ->
  strings.Contains s sep = true -> has_foreign_byte s = true.
Proof.
  unfold strings.Contains, has_foreign_byte. intros -> Hc H.
  apply contains_byte in H. revert H. apply existsb_impl.
  intros a Ha. apply Z.eqb_eq in Ha. now subst.
Qed.

(** ** The two parsers *)

(** [toFloat] on a string is [ParseFloat] on the cleaned string. *)
Lemma toFloat_cleaned (s : string) :
  toFloat (VString s)
  = match strconv.ParseFloat (cleaned s) with
    | (f, None) =>
        if strings.Contains (strings.ReplaceAll s "," "") "%" then (f / 100.0)%float else f
    | (_, Some _) => 0.0%float
    end.
Proof.
  unfold toFloat, cleaned.
  destruct (strings.Contains (strings.ReplaceAll s "," "") "%"); reflexivity.
Qed.

(** *** Digit-free strings: which of them [strconv.ParseFloat] accepts *)

Lemma fold_case_cases (c : Z) : fold_case c = c \/ (65 <= c <= 90 /\ fold_case c = c + 32).
Proof.
  unfold fold_case. change (byte "A") with 65. change (byte "Z") with 90.
  destruct (Z.leb_spec 65 c); destruct (Z.leb_spec c 90); cbn [andb]; auto.
Qed.

(** The bytes [commonPrefixLenIgnoreCase] counts are bytes on which the
    string, in lower case, and the prefix agree. *)
Lemma commonPrefixLen_firstn (l : list Z) :
  forall prefix,
  let n := strconv.commonPrefixLenIgnoreCase l prefix in
  0 <= n <= len l
  /\ firstn (Z.to_nat n) (fold_case <$> l) = firstn (Z.to_nat n) prefix.
Proof.
  induction l as [|c l IH]; intros prefix; cbn [strconv.commonPrefixLenIgnoreCase].
  - cbv zeta. split; [unfold len; simpl; lia|]. now destruct prefix.
  - destruct prefix as [|p prefix].
    + cbv zeta. split; [pose proof (len_nonneg (c :: l)); lia|reflexivity].
    + cbv zeta. fold (fold_case c). destruct (Z.eqb_spec (fold_case c) p) as [E|E].
      * destruct (IH prefix) as [Hr Hf]. cbv zeta in Hr, Hf.
        rewrite len_cons. split; [lia|].
        replace (Z.to_nat (1 + strconv.commonPrefixLenIgnoreCase l prefix))
          with (S (Z.to_nat (strconv.commonPrefixLenIgnoreCase l prefix))) by lia.
        cbn [fmap list_fmap firstn]. rewrite E. f_equal. exact Hf.
      * split; [pose proof (len_nonneg (c :: l)); lia|reflexivity].
Qed.

Lemma commonPrefixLen_whole (l prefix : list Z) :
  strconv.commonPrefixLenIgnoreCase l prefix = len l ->
  fold_case <$> l = firstn (List.length l) prefix.
Proof.
  intros H. destruct (commonPrefixLen_firstn l prefix) as [_ Hf]. cbv zeta in Hf.
  rewrite H in Hf. unfold len in Hf. rewrite Nat2Z.id in Hf.
  rewrite <- Hf. symmetry. apply firstn_all2. rewrite length_fmap. lia.
Qed.

(** Where the prefix is all there is, in lower case, it is counted
    whole. *)
Lemma commonPrefixLen_match (l : list Z) :
  forall p1 p2, fold_case <$> l = p1 ->
  strconv.commonPrefixLenIgnoreCase l (p1 ++ p2) = len l.
Proof.
  induction l as [|c l IH]; intros p1 p2 H.
  - now destruct (p1 ++ p2).
  - destruct p1 as [|p p1]; [discriminate|]. cbn in H. injection H as Hc Hl.
    cbn [strconv.commonPrefixLenIgnoreCase app]. fold (fold_case c).
    rewrite Hc, Z.eqb_refl, (IH p1 p2 Hl), len_cons. reflexivity.
Qed.

Lemma inf_prefix_whole (s : list Z) (neg : bool) (nsign : Z) (f : float) (n : Z) :
  strconv.inf_prefix s neg nsign = Some (f, n) -> n = nsign + len s ->
  fold_case <$> s = bytes "inf" \/ fold_case <$> s = bytes "infinity".
Proof.
  unfold strconv.inf_prefix.
  destruct (commonPrefixLen_firstn s (bytes "infinity")) as [Hr _]. cbv zeta in Hr.
  pose proof (commonPrefixLen_whole s (bytes "infinity")) as Hw.
  revert Hr Hw. generalize (strconv.commonPrefixLenIgnoreCase s (bytes "infinity")).
  intros k Hr Hw H Hn. cbv zeta in H.
  assert (Hk : k = len s /\ (k = 3 \/ k = 8)).
  { destruct (Z.ltb_spec 3 k); destruct (Z.ltb_spec k 8); cbn [andb] in H;
      repeat match type of H with
      | context [?a =? ?b] => destruct (Z.eqb_spec a b)
      end; cbn [orb] in H; try discriminate; injection H as _ <-; lia. }
  destruct Hk as [Hk H38]. specialize (Hw Hk).
  assert (Hlen : List.length s = 3%nat \/ List.length s = 8%nat) by (unfold len in Hk; lia).
  destruct Hlen as [E|E]; rewrite E in Hw; [left|right]; exact Hw.
Qed.

Lemma inf_prefix_match (s : list Z) (neg : bool) (nsign : Z) :
  fold_case <$> s = bytes "inf" \/ fold_case <$> s = bytes "infinity" ->
  strconv.inf_prefix s neg nsign
  = Some (if neg then neg_infinity else infinity, nsign + len s).
Proof.
  intros H. unfold strconv.inf_prefix.
  assert (Hk : strconv.commonPrefixLenIgnoreCase s (bytes "infinity") = len s
               /\ (len s = 3 \/ len s = 8)).
  { destruct H as [H|H].
    - split; [apply (commonPrefixLen_match s (bytes "inf") (bytes "inity") H)|].
      left. unfold len. rewrite <- (length_fmap fold_case), H. reflexivity.
    - split; [apply (commonPrefixLen_match s (bytes "infinity") [] H)|].
      right. unfold len. rewrite <- (length_fmap fold_case), H. reflexivity. }
  destruct Hk as [-> [E|E]]; rewrite E; reflexivity.
Qed.

(** [special] reads a whole string exactly when it is one of the
    spellings. *)
Lemma special_whole (l : list Z) (f : float) (n : Z) :
  strconv.special l = Some (f, n) -> n = len l ->
  existsb (fun w => bool_decide (fold_case <$> l = bytes w)) special_spellings = true.
Proof.
  destruct l as [|c s]; [discriminate|]. unfold strconv.special.
  destruct (Z.eqb_spec c (byte "+")) as [->|Hplus];
    [|destruct (Z.eqb_spec c (byte "-")) as [->|Hminus]]; cbn [orb].
  - intros H Hn. rewrite len_cons in Hn.
    destruct (inf_prefix_whole s _ 1 f n H Hn) as [E|E];
      cbn [fmap list_fmap]; fold (fmap fold_case s); rewrite E; reflexivity.
  - intros H Hn. rewrite len_cons in Hn.
    destruct (inf_prefix_whole s _ 1 f n H Hn) as [E|E];
      cbn [fmap list_fmap]; fold (fmap fold_case s); rewrite E; reflexivity.
  - destruct ((c =? byte "i") || (c =? byte "I")).
    + intros H Hn.
      destruct (inf_prefix_whole (c :: s) _ 0 f n H Hn) as [E|E]; rewrite E; reflexivity.
    + destruct ((c =? byte "n") || (c =? byte "N")); [|discriminate].
      destruct (Z.eqb_spec (strconv.commonPrefixLenIgnoreCase (c :: s) (bytes "nan")) 3)
        as [E|E]; [|discriminate].
      intros H Hn. injection H as _ <-. rewrite Hn in E.
      pose proof (commonPrefixLen_whole (c :: s) (bytes "nan") E) as Hw.
      assert (Hl : List.length (c :: s) = 3%nat) by (unfold len in Hn; lia).
      rewrite Hl in Hw. rewrite Hw. reflexivity.
Qed.

(** A string without a digit that is none of the spellings is a syntax
    error. *)
Lemma ParseFloat_no_digit_no_spelling (s : string) :
  has_digit s = false -> special_spelling s = false ->
  strconv.ParseFloat s = (0%float, Some strconv.ErrSyntax).
Proof.
  intros Hd Hsp. unfold strconv.ParseFloat, strconv.parseFloatPrefix.
  destruct (strconv.special (bytes s)) as [[f n]|] eqn:E.
  - destruct (Z.eqb_spec n (len (bytes s))) as [Hn|Hn]; [|reflexivity].
    unfold special_spelling in Hsp. rewrite (special_whole _ f n E Hn) in Hsp. discriminate.
  - unfold has_digit in Hd. rewrite (readFloat_no_digit _ Hd). reflexivity.
Qed.

Lemma special_match (l : list Z) :
  existsb (fun w => bool_decide (fold_case <$> l = bytes w)) special_spellings = true ->
  exists f, strconv.special l = Some (f, len l)
            /\ (f = infinity \/ f = neg_infinity \/ f = nan).
Proof.
  intros H. apply existsb_exists in H. destruct H as (w & Hw & H).
  apply bool_decide_eq_true in H.
  assert (Hlen : len l = len (bytes w)).
  { unfold len. now rewrite <- (length_fmap fold_case), H. }
  destruct l as [|c s].
  { unfold special_spellings in Hw. simpl in Hw.
    repeat (destruct Hw as [<-|Hw]; [discriminate|]). contradiction. }
  assert (Hc : exists x t, bytes w = x :: t /\ fold_case c = x /\ fold_case <$> s = t).
  { destruct (bytes w) as [|x t]; [discriminate|]. cbn in H. injection H as H0 Hs.
    now exists x, t. }
  destruct Hc as (x & t & Ew & Hx & Ht).
  unfold strconv.special. byte_consts.
  unfold special_spellings in Hw. simpl in Hw.
  destruct (fold_case_cases c) as [Ec|[Rc Ec]]; rewrite Ec in Hx;
    repeat (destruct Hw as [<-|Hw]; [|]); try contradiction;
    vm_compute in Ew; injection Ew as <- <-;
    try lia;
    match type of Hx with
    | c = _ => idtac
    | c + 32 = ?v =>
        let v' := eval vm_compute in (v - 32) in
        assert (Hcv : c = v') by lia; clear Hx
    end;
    subst c;
    repeat match goal with
    | |- context [Z.eqb (Z.pos ?a) (Z.pos ?b)] =>
        let v := eval vm_compute in (Z.eqb (Z.pos a) (Z.pos b)) in
        change (Z.eqb (Z.pos a) (Z.pos b)) with v
    end; cbn [orb];
    first
      [ rewrite (inf_prefix_match s _ 1) by (first [left; exact Ht|right; exact Ht]);
        rewrite len_cons
      | rewrite (inf_prefix_match _ false 0) by (first [left; exact H|right; exact H])
      | match goal with
        | |- context [strconv.commonPrefixLenIgnoreCase ?a ?b] =>
            replace (strconv.commonPrefixLenIgnoreCase a b) with (len a)
              by (symmetry; apply (commonPrefixLen_match _ (bytes "nan") [] H))
        end; rewrite Hlen ];
    eexists; (split; [reflexivity|auto]).
Qed.

(** C8: [toFloat] maps "1,234.5%" to 12.345 and "1,234.5" to 1234.5. Of
    the strings without a decimal digit it maps to 0.0 all but Go's
    spellings of the infinities and of NaN: a string that, its commas and
    percent signs removed, reads "inf" or "infinity", with a sign or
    without, or "nan", in letters of any case, is mapped to that infinity
    or to NaN. A string with a byte that no number is written with is
    mapped to 0.0, and so is every other string [strconv.ParseFloat] does
    not accept. [toFloat] is a function to [float]: there is no panic in
    it. *)
Theorem C8_toFloat_parses :
  toFloat (VString "1,234.5%") = 12.345%float
  /\ toFloat (VString "1,234.5") = 1234.5%float
  /\ (forall s : string,
        has_digit s = false -> special_spelling (cleaned s) = false ->
        toFloat (VString s) = 0.0%float)
  /\ (forall s : string,
        special_spelling (cleaned s) = true ->
        toFloat (VString s) = infinity \/ toFloat (VString s) = neg_infinity
        \/ toFloat (VString s) = nan)
  /\ (forall s : string,
        has_foreign_byte (cleaned s) = true -> toFloat (VString s) = 0.0%float)
  /\ (forall s : string,
        (strconv.ParseFloat (cleaned s)).2 <> None -> toFloat (VString s) = 0.0%float).
Proof.
  split; [vm_compute; reflexivity|]. split; [vm_compute; reflexivity|].
  split; [|split; [|split]].
  - intros s Hd Hsp. rewrite toFloat_cleaned.
    rewrite (ParseFloat_no_digit_no_spelling (cleaned s) (has_digit_cleaned s Hd) Hsp).
    reflexivity.
  - intros s Hsp. rewrite toFloat_cleaned.
    destruct (special_match (bytes (cleaned s)) Hsp) as (f & Hf & Hv).
    unfold strconv.ParseFloat, strconv.parseFloatPrefix. rewrite Hf, Z.eqb_refl.
    destruct (strings.Contains (strings.ReplaceAll s "," "") "%");
      destruct Hv as [-> | [-> | ->]]; vm_compute; auto.
  - intros s Hf. rewrite toFloat_cleaned, (ParseFloat_foreign (cleaned s) Hf). reflexivity.
  - intros s H. rewrite toFloat_cleaned.
    destruct (strconv.ParseFloat (cleaned s)) as [f [e|]]; [reflexivity|].
    simpl in H. contradiction.
Qed.

Lemma C8_toFloat_parses_witness :
  toFloat (VString "n/a") = 0.0%float
  /\ toFloat (VString "abc") = 0.0%float
  /\ (toFloat (VString "-Inf%") = infinity \/ toFloat (VString "-Inf%") = neg_infinity
      \/ toFloat (VString "-Inf%") = nan).
Proof.
  split; [|split].
  - apply (proj1 (proj2 (proj2 (proj2 (proj2 C8_toFloat_parses)))) "n/a").
    vm_compute. reflexivity.
  - apply (proj1 (proj2 (proj2 C8_toFloat_parses)) "abc"); vm_compute; reflexivity.
  - apply (proj1 (proj2 (proj2 (proj2 C8_toFloat_parses))) "-Inf%"). vm_compute. reflexivity.
Defined.

(** C8 as stated fails: "NaN" and "Infinity" are strings without a digit,
    and [toFloat] maps them to NaN and to the positive infinity, not to
    0.0. *)
Lemma C8_counterexample :
  has_digit "NaN" = false /\ has_digit "Infinity" = false
  /\ toFloat (VString "NaN") = nan
  /\ toFloat (VString "Infinity") = infinity
  /\ is_nan (toFloat (VString "NaN")) = true
  /\ (toFloat (VString "NaN") =? 0.0)%float = false
  /\ (toFloat (VString "Infinity") =? 0.0)%float = false.
Proof. repeat split; vm_compute; reflexivity. Qed.

(** The peer scorer sees a field through [parseFloat] only. *)
Lemma peer_round_parseFloat (stock : Stock) (record : gmap string value)
    (key : string) (v1 v2 : value) (score : float) :
  parseFloat v1 = parseFloat v2 ->
  peer_round stock (<[key := v1]> record) score
  = peer_round stock (<[key := v2]> record) score
  /\ median_round stock (<[key := v1]> record) score
     = median_round stock (<[key := v2]> record) score.
Proof.
  intros Hv.
  assert (Hk : forall k, parseFloat (map_index (<[key := v1]> record) k)
                         = parseFloat (map_index (<[key := v2]> record) k)).
  { intros k. unfold map_index. destruct (decide (key = k)) as [->|Hne].
    - rewrite !lookup_insert_eq. exact Hv.
    - rewrite !lookup_insert_ne by exact Hne. reflexivity. }
  unfold peer_round, median_round. rewrite !Hk. split; reflexivity.
Qed.

(** C5, as the code has it: the peer scorer's [parseFloat] hands the text
    to [strconv.ParseFloat] as it is. What that accepts is the value,
    "1234.5" being 1234.5; every parse failure is 0.0. Nothing is removed
    from the text first, so a field with a thousands separator or a
    percent sign is a parse failure: it is 0.0, and both rounds of the
    scorer go as if the field were "0". *)
Theorem C5_parseFloat_rejects_separators :
  (forall (s : string) (f : float),
     strconv.ParseFloat s = (f, None) -> parseFloat (VString s) = f)
  /\ (forall s : string,
        strings.Contains s "," = true \/ strings.Contains s "%" = true
        \/ (strconv.ParseFloat s).2 <> None ->
        parseFloat (VString s) = 0.0%float)
  /\ (forall (s : string) (stock : Stock) (record : gmap string value) (key : string)
             (score : float),
        strings.Contains s "," = true \/ strings.Contains s "%" = true ->
        peer_round stock (<[key := VString s]> record) score
        = peer_round stock (<[key := VString "0"]> record) score
        /\ median_round stock (<[key := VString s]> record) score
           = median_round stock (<[key := VString "0"]> record) score)
  /\ parseFloat (VString "1234.5") = 1234.5%float
  /\ parseFloat (VString "1,234.5") = 0.0%float
  /\ parseFloat (VString "12%") = 0.0%float.
Proof.
  assert (Hsep : forall s : string,
            strings.Contains s "," = true \/ strings.Contains s "%" = true ->
            parseFloat (VString s) = 0.0%float).
  { intros s H. unfold parseFloat.
    assert (Hf : has_foreign_byte s = true).
    { destruct H as [H|H].
      - apply (Contains_foreign s "," 44); [reflexivity|reflexivity|exact H].
      - apply (Contains_foreign s "%" 37); [reflexivity|reflexivity|exact H]. }
    rewrite (ParseFloat_foreign s Hf). reflexivity. }
  split; [|split; [|split]].
  - intros s f H. unfold parseFloat. rewrite H. reflexivity.
  - intros s [H|[H|H]]; [apply Hsep; now left|apply Hsep; now right|].
    unfold parseFloat. destruct (strconv.ParseFloat s) as [f [e|]]; [reflexivity|].
    simpl in H. contradiction.
  - intros s stock record key score H. apply peer_round_parseFloat.
    rewrite (Hsep s H). vm_compute. reflexivity.
  - repeat split; vm_compute; reflexivity.
Qed.

Lemma C5_parseFloat_rejects_separators_witness :
  parseFloat (VString "1,234.5") = 0.0%float
  /\ parseFloat (VString "0.5") = 0.5%float
  /\ peer_round ex_stock (<["pe" := VString "1,234.5"]> ex_peer) 0
     = peer_round ex_stock (<["pe" := VString "0"]> ex_peer) 0.
Proof.
  split; [|split].
  - apply (proj1 (proj2 C5_parseFloat_rejects_separators) "1,234.5").
    left. vm_compute. reflexivity.
  - apply (proj1 C5_parseFloat_rejects_separators "0.5"). vm_compute. reflexivity.
  - apply (proj1 (proj2 (proj2 C5_parseFloat_rejects_separators)) "1,234.5").
    left. vm_compute. reflexivity.
Defined.

(** What [parseFloat] does accept: plain literals, and native numbers. *)
Lemma parseFloat_examples :
  parseFloat (VString "1234.5") = 1234.5%float
  /\ parseFloat (VFloat64 1234.5) = 1234.5%float
  /\ parseFloat (VInt 1234) = 1234%float
  /\ parseFloat VNil = 0.0%float.
Proof. repeat split; vm_compute; reflexivity. Qed.

(** C5 as stated fails: the peer field "1,234.5" parses to 0.0, not to
    1234.5, and "12%" parses to 0.0, not to 0.12, while without the
    separator "1234.5" parses to 1234.5; the parser that removes commas
    and percent signs is [toFloat], which the peer scorer does not use. *)
Lemma C5_counterexample :
  parseFloat (VString "1,234.5") = 0.0%float
  /\ parseFloat (VString "1,234.5") <> 1234.5%float
  /\ parseFloat (VString "12%") = 0.0%float
  /\ parseFloat (VString "1234.5") = 1234.5%float
  /\ toFloat (VString "1,234.5") = 1234.5%float
  /\ toFloat (VString "12%") = 0.12%float.
Proof.
  assert (H : parseFloat (VString "1,234.5") = 0.0%float) by (vm_compute; reflexivity).
  split; [exact H|]. split; [|repeat split; vm_compute; reflexivity].
  rewrite H. intros E.
  assert (F : (0 =? 1234.5)%float = true) by (rewrite E; reflexivity).
  vm_compute in F. discriminate.
Qed.

(** *** Entries that are not strings, in the F-score *)
















(** ** The market-cap category *)

(** C3, at the code: a market cap that does not parse is not "Unknown
    Category". The error is logged, the 0 that came with it is compared,
    and the category is "Small Cap". *)
Theorem C3_getMarketCapCategory_unparsable :
  getMarketCapCategory "abc" = "Small Cap".
Proof. vm_compute. reflexivity. Qed.

(** So it is for every string with a syntax error. *)
Lemma getMarketCapCategory_syntax_error (s : string) :
  (strconv.ParseFloat (strings.ReplaceAll s "," "")).2 = Some strconv.ErrSyntax ->
  getMarketCapCategory s = "Small Cap".
Proof.
  unfold getMarketCapCategory.
  destruct (strconv.ParseFloat (strings.ReplaceAll s "," "")) as [f e] eqn:E.
  simpl. intros ->. apply ParseFloat_syntax_zero in E. subst f. reflexivity.
Qed.

(** The thresholds of C3 hold, and the only road to "Unknown Category" is
    a value that compares with nothing: NaN. *)
Lemma getMarketCapCategory_boundaries :
  getMarketCapCategory "5000" = "Mid Cap"
  /\ getMarketCapCategory "19999.99" = "Mid Cap"
  /\ getMarketCapCategory "20000" = "Large Cap"
  /\ getMarketCapCategory "4999.99" = "Small Cap"
  /\ getMarketCapCategory "1,23,456" = "Large Cap"
  /\ getMarketCapCategory "NaN" = "Unknown Category".
Proof. repeat split; vm_compute; reflexivity. Qed.

(** ** The nested-field lookup and its keys *)

Lemma bytes_app (s t : string) : bytes (s +:+ t) = bytes s ++ bytes t.
Proof. induction s as [|a s IH]; simpl; [reflexivity|]. now rewrite <- IH. Qed.

Lemma of_bytes_app (a b : list Z) : of_bytes (a ++ b) = of_bytes a +:+ of_bytes b.
Proof. induction a as [|x a IH]; simpl; [reflexivity|]. now rewrite IH. Qed.

Lemma rev_head_last (l : list Z) : l <> [] -> exists r, rev l = List.last l 0 :: r.
Proof.
  induction l as [|x l _] using rev_ind; intros H; [contradiction|].
  rewrite rev_app_distr, last_last. simpl. eauto.
Qed.

(** No white-space rune, read from either end, starts with a printable
    ASCII byte other than the space. *)
Lemma space_width_none (sps : list (list Z)) (c : Z) (l : list Z) :
  forallb outside_printable sps = true -> 33 <= c <= 126 ->
  strings.space_width sps (c :: l) = None.
Proof.
  intros Hsps Hc. unfold strings.space_width.
  induction sps as [|sp sps IH]; [reflexivity|].
  simpl in Hsps. apply andb_prop in Hsps. destruct Hsps as [Hsp Hsps].
  simpl List.find. destruct sp as [|x t]; [discriminate|].
  unfold outside_printable in Hsp. simpl is_prefix.
  destruct (Z.eqb_spec x c) as [->|_]; [zcases|].
  simpl. apply IH, Hsps.
Qed.

Lemma space_width_printable (c : Z) (l : list Z) :
  33 <= c <= 126 ->
  strings.space_width strings.spaces (c :: l) = None
  /\ strings.space_width (List.map (@rev Z) strings.spaces) (c :: l) = None.
Proof.
  intros Hc. split; apply space_width_none; try exact Hc; vm_compute; reflexivity.
Qed.

Lemma trim_left_stuck (sps : list (list Z)) (fuel : nat) (l : list Z) :
  strings.space_width sps l = None -> strings.trim_left sps fuel l = l.
Proof. intros H. destruct fuel; simpl; [reflexivity|]. now rewrite H. Qed.

Lemma TrimSpace_id (s : string) (c d : Z) (l r : list Z) :
  bytes s = c :: l -> rev (c :: l) = d :: r -> 33 <= c <= 126 -> 33 <= d <= 126 ->
  strings.TrimSpace s = s.
Proof.
  intros Hs Hr Hc Hd. unfold strings.TrimSpace. rewrite Hs.
  rewrite (trim_left_stuck _ _ _ (proj1 (space_width_printable c l Hc))).
  rewrite Hr.
  rewrite (trim_left_stuck _ _ _ (proj2 (space_width_printable d r Hd))).
  rewrite <- Hr, rev_involutive, <- Hs. apply of_bytes_bytes.
Qed.

Lemma plain_label_inv (s : string) :
  plain_label s = true ->
  exists c l,
    bytes s = c :: l /\ 33 <= c <= 126
    /\ Forall (fun x => x <> 43) (c :: l)
    /\ exists d r, rev (c :: l) = d :: r /\ 33 <= d <= 126 /\ d <> 43.
Proof.
  unfold plain_label. destruct (bytes s) as [|c l] eqn:E; [discriminate|].
  intros H. apply andb_prop in H. destruct H as [H Hlast].
  apply andb_prop in H. destruct H as [Hall Hfirst].
  assert (HF : Forall (fun x => 32 <= x <= 126 /\ x <> 43) (c :: l)).
  { apply Forall_forall. intros x Hx.
    rewrite forallb_forall in Hall. specialize (Hall x ltac:(apply list_elem_of_In; exact Hx)).
    revert Hall. unfold label_byte. byte_consts. intros Hall. zcases. }
  exists c, l. split; [reflexivity|].
  inversion HF as [|? ? Hc0 _]; subst.
  split; [revert Hfirst; intros Hfirst; zcases|].
  split; [eapply Forall_impl; [exact HF|]; simpl; intros x [_ Hx]; exact Hx|].
  destruct (rev_head_last (c :: l) ltac:(discriminate)) as (r & Hr).
  exists (List.last (c :: l) 0), r. split; [exact Hr|].
  assert (Hin : List.last (c :: l) 0 ∈ c :: l).
  { apply list_elem_of_In, in_rev. rewrite Hr. left. reflexivity. }
  rewrite Forall_forall in HF. specialize (HF _ Hin).
  revert Hlast. intros Hlast. zcases.
Qed.

Lemma contains_plus_false (l : list Z) :
  Forall (fun x => x <> 43) l -> strings.contains_bytes [43] l = false.
Proof.
  induction 1 as [|x l Hx _ IH]; [reflexivity|].
  cbn [strings.contains_bytes is_prefix].
  rewrite IH, andb_true_r, orb_false_r. apply Z.eqb_neq. lia.
Qed.

Lemma contains_plus_app (l t : list Z) :
  strings.contains_bytes [43] t = true -> strings.contains_bytes [43] (l ++ t) = true.
Proof.
  intros H. induction l as [|x l IH]; [exact H|].
  cbn [app strings.contains_bytes]. rewrite IH. apply orb_true_r.
Qed.

(** In a label without a plus sign, followed by [tail], the string " +"
    occurs only where [tail] has it. *)
Lemma replace_space_plus (new l tail' : list Z) (t0 : Z) :
  Forall (fun x => x <> 43) l -> t0 <> 43 ->
  strings.replace_bytes [32; 43] new O (l ++ t0 :: tail')
  = l ++ strings.replace_bytes [32; 43] new O (t0 :: tail').
Proof.
  intros Hl Ht. induction Hl as [|x l Hx Hl IH]; [reflexivity|].
  cbn [app]. cbn [strings.replace_bytes].
  assert (Hp : is_prefix [32; 43] (x :: l ++ t0 :: tail') = false).
  { cbn [is_prefix]. destruct l as [|y l]; cbn [app is_prefix].
    - destruct (Z.eqb_spec 43 t0); [lia|]. apply andb_false_r.
    - inversion Hl; subst. destruct (Z.eqb_spec 43 y); [lia|]. apply andb_false_r. }
  rewrite Hp. f_equal. apply IH.
Qed.

(** A plain key is looked up as it is. *)
Lemma normalize_key_plain (s : string) : plain_label s = true -> normalize_key s = s.
Proof.
  intros H. destruct (plain_label_inv s H) as (c & l & Hs & Hc & H43 & d & r & Hr & Hd & _).
  unfold normalize_key. rewrite (TrimSpace_id s c d l r Hs Hr Hc Hd).
  unfold strings.Contains. rewrite Hs.
  change (bytes "+") with [43]. now rewrite (contains_plus_false _ H43).
Qed.

(** The plain-space spelling of a "+" label is rewritten to the
    no-break-space spelling, which is left as it is. *)
Lemma normalize_key_space_plus (s : string) :
  plain_label s = true -> normalize_key (s +:+ " +") = s +:+ nbsp_plus.
Proof.
  intros H. destruct (plain_label_inv s H) as (c & l & Hs & Hc & H43 & _).
  assert (Hb : bytes (s +:+ " +") = c :: (l ++ [32; 43])).
  { rewrite bytes_app, Hs. reflexivity. }
  assert (Hr : rev (c :: (l ++ [32; 43])) = 43 :: (32 :: rev (c :: l))).
  { change (c :: (l ++ [32; 43])) with ((c :: l) ++ [32; 43]).
    rewrite rev_app_distr. reflexivity. }
  unfold normalize_key.
  rewrite (TrimSpace_id _ c 43 _ _ Hb Hr Hc ltac:(lia)).
  unfold strings.Contains. rewrite Hb.
  change (bytes "+") with [43].
  change (c :: (l ++ [32; 43])) with ((c :: l) ++ [32; 43]).
  rewrite (contains_plus_app (c :: l) [32; 43] eq_refl).
  unfold strings.ReplaceAll. rewrite bytes_app, Hs.
  change (bytes " +") with [32; 43].
  rewrite (replace_space_plus _ (c :: l) [43] 32 H43 ltac:(lia)).
  rewrite of_bytes_app, <- Hs, of_bytes_bytes. reflexivity.
Qed.

Lemma normalize_key_nbsp_plus (s : string) :
  plain_label s = true -> normalize_key (s +:+ nbsp_plus) = s +:+ nbsp_plus.
Proof.
  intros H. destruct (plain_label_inv s H) as (c & l & Hs & Hc & H43 & _).
  assert (Hb : bytes (s +:+ nbsp_plus) = c :: (l ++ [194; 160; 43])).
  { rewrite bytes_app, Hs. reflexivity. }
  assert (Hr : rev (c :: (l ++ [194; 160; 43])) = 43 :: (160 :: 194 :: rev (c :: l))).
  { change (c :: (l ++ [194; 160; 43])) with ((c :: l) ++ [194; 160; 43]).
    rewrite rev_app_distr. reflexivity. }
  unfold normalize_key.
  rewrite (TrimSpace_id _ c 43 _ _ Hb Hr Hc ltac:(lia)).
  unfold strings.Contains. rewrite Hb.
  change (bytes "+") with [43].
  change (c :: (l ++ [194; 160; 43])) with ((c :: l) ++ [194; 160; 43]).
  rewrite (contains_plus_app (c :: l) [194; 160; 43] eq_refl).
  unfold strings.ReplaceAll. rewrite bytes_app, Hs.
  change (bytes " +") with [32; 43].
  rewrite (replace_space_plus _ (c :: l) [160; 43] 194 H43 ltac:(lia)).
  rewrite of_bytes_app, <- Hs, of_bytes_bytes. reflexivity.
Qed.

(** C9, as the code has it: the lookup rewrites every " +" of the key it
    is given to the no-break-space encoding before it reads the map. A
    sequence stored under the no-break-space spelling of a "+" label is
    therefore returned for both spellings of the key, the plain-space one
    included. *)
Theorem C9_getNestedArrayField_both_spellings
    (stock statement : gmap string value) (section label : string) (values : list value) :
  plain_label section = true -> plain_label label = true ->
  stock !! section = Some (VMap statement) ->
  statement !! (label +:+ nbsp_plus) = Some (VArr values) ->
  getNestedArrayField stock [section; label +:+ nbsp_plus] = values
  /\ getNestedArrayField stock [section; label +:+ " +"] = values.
Proof.
  intros Hsec Hlab Hstock Hst.
  cbn [getNestedArrayField].
  rewrite (normalize_key_plain section Hsec), Hstock.
  rewrite (normalize_key_nbsp_plus label Hlab), (normalize_key_space_plus label Hlab), Hst.
  split; reflexivity.
Qed.

Lemma C9_getNestedArrayField_both_spellings_witness :
  getNestedArrayField ex_statements ["profitLoss"; "Net Profit" +:+ nbsp_plus]
  = [VString "10"; VString "12"; VString "15"]
  /\ getNestedArrayField ex_statements ["profitLoss"; "Net Profit" +:+ " +"]
     = [VString "10"; VString "12"; VString "15"].
Proof.
  apply (C9_getNestedArrayField_both_spellings ex_statements
           {[ "Net Profit" +:+ nbsp_plus := VArr [VString "10"; VString "12"; VString "15"] ]}
           "profitLoss" "Net Profit");
    vm_compute; reflexivity.
Defined.

(** C9 as stated fails: queried with the plain-space key "Net Profit +",
    the lookup returns the stored sequence, not the empty one; only the
    map itself has no such key. *)
Lemma C9_counterexample :
  getNestedArrayField ex_statements ["profitLoss"; "Net Profit +"]
  = [VString "10"; VString "12"; VString "15"]
  /\ getNestedArrayField ex_statements ["profitLoss"; "Net Profit +"] <> [].
Proof.
  assert (H : getNestedArrayField ex_statements ["profitLoss"; "Net Profit +"]
              = [VString "10"; VString "12"; VString "15"]) by (vm_compute; reflexivity).
  split; [exact H|]. rewrite H. discriminate.
Qed.

(** * Further properties of [main.go] *)

(** ** The peer comparison scorer and the rating *)

Lemma peers_loop_non_record (stock : Stock) (peers : list value) :
  forall peerScore, forallb is_map peers = false ->
    peers_loop stock peers peerScore = Panic TypeAssertion.
Proof.
  induction peers as [|peerRaw peers IH]; intros peerScore H; [discriminate|].
  simpl in H. destruct peerRaw; try reflexivity.
  simpl in H. simpl. apply IH, H.
Qed.

Lemma peers_loop_records (stock : Stock) (peers : list value) :
  forall peerScore, forallb is_map peers = true ->
    exists score, peers_loop stock peers peerScore = Ok score.
Proof.
  induction peers as [|peerRaw peers IH]; intros peerScore H; [simpl; eauto|].
  simpl in H. apply andb_prop in H. destruct H as [Hm H].
  destruct peerRaw; try discriminate. simpl. apply IH, H.
Qed.

(** X1: every element of the peer array is asserted to be a record. An
    array of two or more entries with an entry that is not a [bson.M], a
    [nil] or a string say, makes [compareWithPeers] panic on the failed
    assertion; no score is returned. *)
Theorem compareWithPeers_non_record_panics (stock : Stock) (arr : list value) :
  2 <= len arr -> forallb is_map arr = false ->
  compareWithPeers stock (VArr arr) = Panic TypeAssertion.
Proof.
  intros Hlen Hmap. unfold compareWithPeers.
  destruct (Z.ltb_spec (len arr) 2); [lia|].
  destruct (exists_last (l := arr)) as (front & lastv & ->).
  { intros ->. unfold len in Hlen. simpl in Hlen. lia. }
  assert (Hl : len (front ++ [lastv]) = len front + 1) by (rewrite len_app; reflexivity).
  rewrite Hl. replace (len front + 1 - 1) with (len front) by lia.
  replace (Z.to_nat (len front)) with (List.length front) by (unfold len; lia).
  rewrite firstn_app, firstn_all, Nat.sub_diag, firstn_0, app_nil_r.
  rewrite forallb_app in Hmap. simpl in Hmap. rewrite andb_true_r in Hmap.
  destruct (forallb is_map front) eqn:Hfront.
  - destruct (peers_loop_records stock front 0.0%float Hfront) as (score & ->).
    rewrite bind_ok, index_ok by (rewrite Hl; pose proof (len_nonneg front); lia).
    replace (Z.to_nat (len front)) with (List.length front) by (unfold len; lia).
    rewrite nth_middle, bind_ok. simpl in Hmap.
    destruct lastv; try discriminate; reflexivity.
  - rewrite (peers_loop_non_record stock front _ Hfront). reflexivity.
Qed.

Lemma compareWithPeers_non_record_panics_witness :
  compareWithPeers ex_stock (VArr [VMap ex_peer; VString "n/a"; VMap ex_median])
  = Panic TypeAssertion.
Proof.
  apply (compareWithPeers_non_record_panics ex_stock
           [VMap ex_peer; VString "n/a"; VMap ex_median]);
    vm_compute; [discriminate|reflexivity].
Defined.

(** The scorer reads six numbers of the stock and nothing else. *)
Lemma peer_round_fields (s1 s2 : Stock) (peer : gmap string value) (score : float) :
  PE s1 = PE s2 -> MarketCap s1 = MarketCap s2 -> DividendYield s1 = DividendYield s2 ->
  ROCE s1 = ROCE s2 -> QuarterlySales s1 = QuarterlySales s2 ->
  QuarterlyProfit s1 = QuarterlyProfit s2 ->
  peer_round s1 peer score = peer_round s2 peer score
  /\ median_round s1 peer score = median_round s2 peer score.
Proof.
  intros H1 H2 H3 H4 H5 H6. unfold peer_round, median_round.
  rewrite H1, H2, H3, H4, H5, H6. split; reflexivity.
Qed.

Lemma compareWithPeers_fields (s1 s2 : Stock) (peers : value) :
  PE s1 = PE s2 -> MarketCap s1 = MarketCap s2 -> DividendYield s1 = DividendYield s2 ->
  ROCE s1 = ROCE s2 -> QuarterlySales s1 = QuarterlySales s2 ->
  QuarterlyProfit s1 = QuarterlyProfit s2 ->
  compareWithPeers s1 peers = compareWithPeers s2 peers.
Proof.
  intros H1 H2 H3 H4 H5 H6.
  assert (Hloop : forall l score, peers_loop s1 l score = peers_loop s2 l score).
  { induction l as [|v l IH]; intros score; [reflexivity|].
    simpl. destruct v; try reflexivity. simpl.
    rewrite (proj1 (peer_round_fields s1 s2 m score H1 H2 H3 H4 H5 H6)). apply IH. }
  unfold compareWithPeers. destruct peers; try reflexivity.
  destruct (len a <? 2); [reflexivity|]. rewrite Hloop.
  destruct (peers_loop s2 (firstn (Z.to_nat (len a - 1)) a) 0.0%float) as [score|p];
    [|reflexivity].
  rewrite !bind_ok. destruct (index a (len a - 1)) as [medianRaw|p]; [|reflexivity].
  rewrite !bind_ok. destruct medianRaw; try reflexivity. simpl.
  rewrite (proj2 (peer_round_fields s1 s2 m score H1 H2 H3 H4 H5 H6)). reflexivity.
Qed.

(** X2: [rateStock] reads seven keys of the record: the name, the four
    ratios, the peers and the quarterly results. Writing any other key,
    the pros and the cons included, leaves the rating as it was. *)
Theorem rateStock_frame (stock : gmap string value) (key : string) (v : value) :
  key <> "name" -> key <> "stockPE" -> key <> "marketCap" -> key <> "dividendYield" ->
  key <> "roce" -> key <> "peers" -> key <> "quarterlyResults" ->
  rateStock (<[key := v]> stock) = rateStock stock.
Proof.
  intros H1 H2 H3 H4 H5 H6 H7.
  assert (Hidx : forall k, key <> k -> map_index (<[key := v]> stock) k = map_index stock k).
  { intros k Hk. unfold map_index. now rewrite lookup_insert_ne. }
  unfold rateStock. rewrite !Hidx by assumption.
  destruct (assert_string (map_index stock "name")) as [name|p]; [|reflexivity].
  rewrite !bind_ok.
  rewrite (compareWithPeers_fields (stockData_of name (<[key := v]> stock))
             (stockData_of name stock));
    unfold stockData_of; simpl; rewrite ?Hidx by assumption; reflexivity.
Qed.

Lemma rateStock_frame_witness :
  rateStock (<["pros" := VArr [VString "Debt free"]]> ex_rated) = rateStock ex_rated.
Proof.
  apply (rateStock_frame ex_rated "pros" (VArr [VString "Debt free"])); discriminate.
Defined.

(** X3: the name is asserted to be a string before anything is scored: a
    record without a "name", or with one that is not a string, makes
    [rateStock] panic. *)
Theorem rateStock_without_name_panics (stock : gmap string value) :
  (forall s, stock !! "name" <> Some (VString s)) ->
  rateStock stock = Panic TypeAssertion.
Proof.
  intros H. unfold rateStock, map_index.
  destruct (stock !! "name") as [v|]; [|reflexivity].
  destruct v; try reflexivity. exfalso. eapply H. reflexivity.
Qed.

Lemma rateStock_without_name_panics_witness :
  rateStock {[ "stockPE" := VString "5" ]} = Panic TypeAssertion.
Proof.
  apply (rateStock_without_name_panics {[ "stockPE" := VString "5" ]}).
  intros s. vm_compute. discriminate.
Defined.

(** X4: a record with a name but neither a peer array nor a map of
    quarterly results is rated 0.0: both scorers fall back to 0.0, and
    the rounding keeps it. *)
Theorem rateStock_without_peers_and_history (stock : gmap string value) (name : string) :
  stock !! "name" = Some (VString name) ->
  is_array (map_index stock "peers") = false ->
  is_map (map_index stock "quarterlyResults") = false ->
  rateStock stock = Ok 0.0%float.
Proof.
  intros Hname Hpeers Hq. unfold rateStock.
  assert (Hn : map_index stock "name" = VString name).
  { unfold map_index. now rewrite Hname. }
  rewrite Hn. simpl assert_string. rewrite bind_ok.
  assert (Hc : compareWithPeers (stockData_of name stock) (map_index stock "peers")
               = Ok 0.0%float).
  { destruct (map_index stock "peers"); try discriminate; vm_compute; reflexivity. }
  assert (Ht : analyzeTrend (stockData_of name stock) (map_index stock "quarterlyResults")
               = 0.0%float).
  { destruct (map_index stock "quarterlyResults"); try discriminate; reflexivity. }
  rewrite Hc, bind_ok, Ht. vm_compute. reflexivity.
Qed.

Lemma rateStock_without_peers_and_history_witness :
  rateStock {[ "name" := VString "Acme"; "stockPE" := VString "5" ]} = Ok 0.0%float.
Proof.
  apply (rateStock_without_peers_and_history
           {[ "name" := VString "Acme"; "stockPE" := VString "5" ]} "Acme");
    vm_compute; reflexivity.
Defined.

(** [prosConsAdjustment] is 0.0 for every stock, however many pros and
    cons it has: the counts reach [toFloat] as integers, and [toFloat]
    makes 0.0 of everything that is not a string. *)
Lemma prosConsAdjustment_is_zero (stock : Stock) :
  prosConsAdjustment stock = 0.0%float.
Proof. reflexivity. Qed.

(** ** [toFloat] and [parseFloat] on the same text *)

(** Replacing a one-byte string by nothing filters that byte out. *)
Lemma replace_single_byte (c : Z) (l : list Z) :
  strings.replace_bytes [c] [] O l = List.filter (fun b => negb (c =? b)) l.
Proof.
  induction l as [|b l IH]; [reflexivity|].
  cbn [strings.replace_bytes is_prefix List.filter List.length Nat.pred app].
  rewrite andb_true_r. destruct (c =? b); simpl; rewrite IH; reflexivity.
Qed.

Lemma contains_single_byte (c : Z) (l : list Z) :
  strings.contains_bytes [c] l = existsb (Z.eqb c) l.
Proof.
  induction l as [|b l IH]; [reflexivity|].
  cbn [strings.contains_bytes is_prefix existsb]. now rewrite andb_true_r, IH.
Qed.

Lemma filter_absent (c : Z) (l : list Z) :
  existsb (Z.eqb c) l = false -> List.filter (fun b => negb (c =? b)) l = l.
Proof.
  induction l as [|b l IH]; [reflexivity|]. simpl.
  intros H. apply orb_false_elim in H. destruct H as [Hb Hl].
  rewrite Hb. simpl. now rewrite IH.
Qed.

(** The bytes [toFloat] parses are those of the string without its commas
    and percent signs; it divides by 100 when a percent sign was there. *)
Lemma bytes_cleaned (s : string) :
  bytes (cleaned s) = List.filter no_percent (List.filter no_comma (bytes s))
  /\ strings.Contains (strings.ReplaceAll s "," "") "%"
     = existsb (Z.eqb 37) (List.filter no_comma (bytes s)).
Proof.
  assert (H1 : bytes (strings.ReplaceAll s "," "") = List.filter no_comma (bytes s)).
  { rewrite bytes_ReplaceAll_nil. apply replace_single_byte. }
  assert (H2 : strings.Contains (strings.ReplaceAll s "," "") "%"
               = existsb (Z.eqb 37) (List.filter no_comma (bytes s))).
  { unfold strings.Contains. rewrite H1. apply contains_single_byte. }
  split; [|exact H2]. unfold cleaned. rewrite H2.
  destruct (existsb (Z.eqb 37) (List.filter no_comma (bytes s))) eqn:E.
  - rewrite bytes_ReplaceAll_nil, H1. apply replace_single_byte.
  - rewrite H1. symmetry. apply filter_absent, E.
Qed.

Lemma cleaned_eq (s t : string) : bytes (cleaned s) = bytes (cleaned t) -> cleaned s = cleaned t.
Proof. intros H. rewrite <- (of_bytes_bytes (cleaned s)), H. apply of_bytes_bytes. Qed.

(** X5: [toFloat] does not see commas, wherever they stand: a comma put
    anywhere into a string changes nothing of its value. "1,5" is 15. *)
Theorem toFloat_ignores_commas (a b : string) :
  toFloat (VString (a +:+ "," +:+ b)) = toFloat (VString (a +:+ b)).
Proof.
  rewrite !toFloat_cleaned.
  destruct (bytes_cleaned (a +:+ "," +:+ b)) as [Hc1 Hp1].
  destruct (bytes_cleaned (a +:+ b)) as [Hc2 Hp2].
  assert (Hf : List.filter no_comma (bytes (a +:+ "," +:+ b))
               = List.filter no_comma (bytes (a +:+ b))).
  { rewrite !bytes_app, !List.filter_app. reflexivity. }
  rewrite Hf in Hc1, Hp1.
  rewrite Hp1, Hp2, (cleaned_eq _ _ (eq_trans Hc1 (eq_sym Hc2))). reflexivity.
Qed.

(** X6: a percent sign anywhere in the string, not only at its end,
    divides the value by 100: with no other percent sign in [a] and [b],
    the string [a%b] is worth a hundredth of [ab]. *)
Theorem toFloat_percent_anywhere (a b : string) :
  strings.Contains (a +:+ b) "%" = false ->
  toFloat (VString (a +:+ "%" +:+ b)) = (toFloat (VString (a +:+ b)) / 100)%float.
Proof.
  intros Hno. unfold strings.Contains in Hno. change (bytes "%") with [37] in Hno.
  rewrite contains_single_byte in Hno.
  rewrite !toFloat_cleaned.
  destruct (bytes_cleaned (a +:+ "%" +:+ b)) as [Hc1 Hp1].
  destruct (bytes_cleaned (a +:+ b)) as [Hc2 Hp2].
  assert (Hb : bytes (a +:+ "%" +:+ b) = bytes a ++ [37] ++ bytes b).
  { rewrite !bytes_app. reflexivity. }
  assert (Hf : List.filter no_percent (List.filter no_comma (bytes (a +:+ "%" +:+ b)))
               = List.filter no_percent (List.filter no_comma (bytes (a +:+ b)))).
  { rewrite Hb, bytes_app, !List.filter_app. reflexivity. }
  assert (Hyes : existsb (Z.eqb 37) (List.filter no_comma (bytes (a +:+ "%" +:+ b))) = true).
  { rewrite Hb, !List.filter_app, !existsb_app. simpl. apply orb_true_r. }
  assert (Hnot : existsb (Z.eqb 37) (List.filter no_comma (bytes (a +:+ b))) = false).
  { apply existsb_false_Forall. apply existsb_false_Forall in Hno.
    apply Forall_forall. intros x Hx. rewrite Forall_forall in Hno. apply Hno.
    apply list_elem_of_In. apply list_elem_of_In in Hx. apply List.filter_In in Hx. tauto. }
  rewrite Hf in Hc1.
  rewrite Hp1, Hp2, Hyes, Hnot, (cleaned_eq _ _ (eq_trans Hc1 (eq_sym Hc2))).
  destruct (strconv.ParseFloat (cleaned (a +:+ b))) as [f [e|]]; reflexivity.
Qed.

Lemma toFloat_percent_anywhere_witness :
  toFloat (VString ("12" +:+ "%" +:+ ".5")) = (toFloat (VString ("12" +:+ ".5")) / 100)%float.
Proof.
  apply (toFloat_percent_anywhere "12" ".5"). vm_compute. reflexivity.
Defined.

(** X7: the two parsers differ on commas and percent signs only: on a
    string with neither, the peer scorer's [parseFloat] and [toFloat]
    give the same number. *)
Theorem parseFloat_toFloat_agree (s : string) :
  strings.Contains s "," = false -> strings.Contains s "%" = false ->
  parseFloat (VString s) = toFloat (VString s).
Proof.
  unfold strings.Contains. change (bytes ",") with [44]. change (bytes "%") with [37].
  rewrite !contains_single_byte. intros Hc Hp.
  rewrite toFloat_cleaned. destruct (bytes_cleaned s) as [Hb Hflag].
  assert (H1 : List.filter no_comma (bytes s) = bytes s) by (apply filter_absent, Hc).
  rewrite H1 in Hb, Hflag.
  assert (H2 : List.filter no_percent (bytes s) = bytes s) by (apply filter_absent, Hp).
  rewrite H2 in Hb.
  assert (Hs : cleaned s = s).
  { rewrite <- (of_bytes_bytes (cleaned s)), Hb. apply of_bytes_bytes. }
  rewrite Hs, Hflag, Hp. unfold parseFloat.
  destruct (strconv.ParseFloat s) as [f [e|]]; reflexivity.
Qed.

Lemma parseFloat_toFloat_agree_witness :
  parseFloat (VString "1234.5") = toFloat (VString "1234.5").
Proof.
  apply (parseFloat_toFloat_agree "1234.5"); vm_compute; reflexivity.
Defined.

(** ** The nested-field lookup: what it can and cannot reach *)

Lemma replace_bytes_Forall (P : Z -> Prop) (old new : list Z) (l : list Z) :
  Forall P new -> forall skip, Forall P l -> Forall P (strings.replace_bytes old new skip l).
Proof.
  intros Hnew. induction l as [|b l IH]; intros skip H; simpl; [constructor|].
  inversion H as [|? ? Hb Hl]; subst.
  destruct skip as [|k]; [|apply IH, Hl].
  destruct (is_prefix old (b :: l)).
  - apply Forall_app. split; [exact Hnew|apply IH, Hl].
  - constructor; [exact Hb|apply IH, Hl].
Qed.

Lemma contains_pair_second (a b : Z) (l : list Z) :
  strings.contains_bytes [a; b] l = true -> strings.contains_bytes [b] l = true.
Proof.
  induction l as [|x l IH]; [discriminate|].
  cbn [strings.contains_bytes is_prefix]. intros H.
  apply orb_prop in H. destruct H as [H|H].
  - apply andb_prop in H. destruct H as [_ H]. destruct l as [|y l]; [discriminate|].
    cbn [strings.contains_bytes is_prefix].
    rewrite andb_true_r in *. rewrite H. simpl. apply orb_true_r.
  - rewrite (IH H). apply orb_true_r.
Qed.

(** After the replacement no " +" is left. *)
Lemma replace_space_plus_head (l : list Z) :
  starts_with_plus (strings.replace_bytes [32; 43] [194; 160; 43] O l) = true ->
  starts_with_plus l = true.
Proof.
  destruct l as [|b l]; [discriminate|]. cbn [strings.replace_bytes].
  destruct (is_prefix [32; 43] (b :: l)); [discriminate|]. trivial.
Qed.

Lemma is_prefix_space_plus (b : Z) (l : list Z) :
  is_prefix [32; 43] (b :: l) = (32 =? b) && starts_with_plus l.
Proof. cbn [is_prefix]. destruct l; simpl; now rewrite ?andb_true_r. Qed.

Lemma replace_space_plus_gone (n : nat) :
  forall l, (List.length l <= n)%nat ->
    strings.contains_bytes [32; 43] (strings.replace_bytes [32; 43] [194; 160; 43] O l) = false.
Proof.
  induction n as [|n IH]; intros l Hn.
  - destruct l; [reflexivity|simpl in Hn; lia].
  - destruct l as [|b l]; [reflexivity|]. simpl in Hn.
    cbn [strings.replace_bytes].
    destruct (is_prefix [32; 43] (b :: l)) eqn:Hp.
    + change (Nat.pred (List.length [32; 43])) with 1%nat.
      destruct l as [|c l]; [reflexivity|]. cbn [strings.replace_bytes].
      change ([194; 160; 43] ++ ?x) with (194 :: 160 :: 43 :: x).
      cbn [strings.contains_bytes app].
      rewrite !is_prefix_space_plus.
      change (32 =? 194) with false. change (32 =? 160) with false.
      change (32 =? 43) with false. cbn [andb orb].
      apply IH. simpl in Hn. lia.
    + cbn [strings.contains_bytes]. rewrite (IH l) by lia. rewrite orb_false_r.
      rewrite is_prefix_space_plus in *.
      destruct (32 =? b); [|reflexivity]. simpl in *.
      destruct (starts_with_plus (strings.replace_bytes [32; 43] [194; 160; 43] O l)) eqn:E;
        [|reflexivity].
      apply replace_space_plus_head in E. congruence.
Qed.

(** The key that is looked up never holds a space followed by a plus. *)
Lemma normalize_key_no_space_plus (key : string) :
  strings.Contains (normalize_key key) " +" = false.
Proof.
  unfold normalize_key.
  destruct (strings.Contains (strings.TrimSpace key) "+") eqn:E.
  - unfold strings.Contains, strings.ReplaceAll.
    rewrite bytes_of_bytes.
    + change (bytes " +") with [32; 43]. change (bytes nbsp_plus) with [194; 160; 43].
      apply (replace_space_plus_gone (List.length (bytes (strings.TrimSpace key)))). lia.
    + apply replace_bytes_Forall; [|apply bytes_range].
      change (bytes nbsp_plus) with [194; 160; 43]. repeat constructor; lia.
  - unfold strings.Contains in *. change (bytes " +") with [32; 43].
    change (bytes "+") with [43] in E.
    destruct (strings.contains_bytes [32; 43] (bytes (strings.TrimSpace key))) eqn:F;
      [|reflexivity].
    apply contains_pair_second in F. congruence.
Qed.

(** X8: an entry filed under a key with a plain space before a plus, such
    as "Net Profit +", is out of the lookup's reach: in a map that has only
    such keys, [getNestedArrayField] finds nothing, whatever the path. *)
Theorem getNestedArrayField_plain_plus_unreachable
    (current : gmap string value) (path : list string) :
  (forall k v, current !! k = Some v -> strings.Contains k " +" = true) ->
  getNestedArrayField current path = [].
Proof.
  intros H. destruct path as [|key rest]; [reflexivity|].
  cbn [getNestedArrayField].
  destruct (current !! normalize_key key) as [v|] eqn:E.
  - apply H in E. rewrite normalize_key_no_space_plus in E. discriminate.
  - destruct rest; reflexivity.
Qed.

Lemma getNestedArrayField_plain_plus_unreachable_witness :
  getNestedArrayField {[ "Net Profit +" := VArr [VString "10"] ]} ["Net Profit +"] = [].
Proof.
  apply (getNestedArrayField_plain_plus_unreachable
           {[ "Net Profit +" := VArr [VString "10"] ]} ["Net Profit +"]).
  intros k v Hk. apply lookup_singleton_Some in Hk. destruct Hk as [<- _].
  vm_compute. reflexivity.
Defined.

(** X9: for a section and a label that are plain (printable ASCII, no
    plus sign, no space at either end) the lookup is the two map lookups:
    it returns the array filed under the label of the section, and the
    empty array when the section is missing or is no map, or the label is
    missing or holds no array. *)
Theorem getNestedArrayField_plain (stock : gmap string value) (section label : string) :
  plain_label section = true -> plain_label label = true ->
  getNestedArrayField stock [section; label]
  = match stock !! section with
    | Some (VMap statement) =>
        match statement !! label with
        | Some (VArr values) => values
        | _ => []
        end
    | _ => []
    end.
Proof.
  intros Hs Hl. cbn [getNestedArrayField].
  rewrite (normalize_key_plain section Hs), (normalize_key_plain label Hl).
  reflexivity.
Qed.

Lemma getNestedArrayField_plain_witness :
  getNestedArrayField ex_full_history ["balanceSheet"; "Total Assets"]
  = match ex_full_history !! "balanceSheet" with
    | Some (VMap statement) =>
        match statement !! "Total Assets" with
        | Some (VArr values) => values
        | _ => []
        end
    | _ => []
    end.
Proof.
  apply (getNestedArrayField_plain ex_full_history "balanceSheet" "Total Assets");
    vm_compute; reflexivity.
Defined.

(** ** The trend scorer on scraped data *)

Lemma omap_all_None {A B} (f : A -> option B) (l : list A) :
  (forall x, In x l -> f x = None) -> omap f l = [].
Proof.
  induction l as [|a l IH]; intros H; [reflexivity|].
  cbn [omap list_omap]. rewrite (H a (or_introl eq_refl)).
  apply IH. intros x Hx. apply H. right. exact Hx.
Qed.

Lemma element_events_unrelated (prev cur : gmap string value) :
  no_shared_label prev cur = true -> element_events prev cur = [].
Proof.
  unfold no_shared_label, element_events. intros H.
  rewrite omap_all_None; [reflexivity|].
  intros kv Hkv. rewrite forallb_forall in H. specialize (H kv Hkv).
  destruct (prev !! kv.1); [discriminate|reflexivity].
Qed.

Lemma adjacent_events_unrelated (entries : list (gmap string value)) :
  adjacent_unrelated entries = true -> adjacent_events entries = [].
Proof.
  induction entries as [|prev entries IH]; [reflexivity|].
  destruct entries as [|cur rest]; [reflexivity|].
  cbn [adjacent_unrelated adjacent_events]. intros H.
  apply andb_prop in H. destruct H as [H1 H2].
  rewrite (element_events_unrelated prev cur H1). apply IH, H2.
Qed.

Lemma concat_all_nil {A} (ls : list (list A)) :
  (forall l, In l ls -> l = []) -> concat ls = [].
Proof.
  induction ls as [|l ls IH]; intros H; [reflexivity|].
  simpl. rewrite (H l (or_introl eq_refl)). apply IH. intros l' Hl'. apply H. now right.
Qed.

(** X10: when in no section two adjacent entries share a label, no
    comparison is made and the trend score is 0.0. That is the case for
    the quarterly results as [fetchCompanyData] files them when
    neighbouring columns stand under different months: each entry is a
    one-entry map keyed by the month of its column. *)
Theorem analyzeTrend_unrelated_entries (stock : Stock) (data : gmap string value) :
  (forall section quarterArray,
     data !! section = Some (VArr quarterArray) ->
     adjacent_unrelated (maps_of quarterArray) = true) ->
  analyzeTrend stock (VMap data) = 0.0%float.
Proof.
  intros H.
  assert (Hev : trend_events data = []).
  { unfold trend_events. apply concat_all_nil. intros l Hl.
    apply in_map_iff in Hl. destruct Hl as (v & <- & Hv).
    apply in_rev in Hv. apply in_map_iff in Hv. destruct Hv as ([k v'] & <- & Hkv).
    apply list_elem_of_In, elem_of_map_to_list in Hkv. simpl.
    destruct v'; try reflexivity. simpl. apply adjacent_events_unrelated, (H k), Hkv. }
  unfold analyzeTrend. rewrite map_fold_foldr, trend_section_events.
  unfold trend_events in Hev. cbv zeta. rewrite Hev. reflexivity.
Qed.

Lemma analyzeTrend_unrelated_entries_witness :
  analyzeTrend ex_stock (VMap ex_scraped_quarters) = 0.0%float.
Proof.
  apply (analyzeTrend_unrelated_entries ex_stock ex_scraped_quarters).
  intros section quarterArray Hs.
  unfold ex_scraped_quarters in Hs.
  apply lookup_insert_Some in Hs. destruct Hs as [[_ Hs]|[_ Hs]].
  - injection Hs as <-. vm_compute. reflexivity.
  - apply lookup_singleton_Some in Hs. destruct Hs as [_ Hs].
    injection Hs as <-. vm_compute. reflexivity.
Defined.

(** ** The F-score: where it returns *)

(** X11: the leverage and the operating-efficiency sub-scores never
    panic, whatever the record: every index is behind a length check.
    The first is 0, 1, 2 or 3, the second 0, 1 or 2. *)
Theorem leverage_and_efficiency_never_panic (stock : gmap string value) :
  (exists n, calculateLeverageScore stock = Ok n /\ 0 <= n <= 3)
  /\ (exists n, calculateOperatingEfficiencyScore stock = Ok n /\ 0 <= n <= 2).
Proof.
  split; [apply calculateLeverageScore_range|apply calculateOperatingEfficiencyScore_range].
Qed.

(** X12: with at least three entries of "Net Profit +" and two of "Total
    Assets", all of them strings, the F-score is returned, and is an
    integer from 0 to 9. *)
Theorem generateFScore_returns (stock : gmap string value) :
  3 <= len (getNestedArrayField stock ["profitLoss"; "Net Profit +"]) ->
  2 <= len (getNestedArrayField stock ["balanceSheet"; "Total Assets"]) ->
  forallb is_string (getNestedArrayField stock ["profitLoss"; "Net Profit +"]) = true ->
  forallb is_string (getNestedArrayField stock ["balanceSheet"; "Total Assets"]) = true ->
  exists n, generateFScore stock = Ok n /\ 0 <= n <= 9.
Proof.
  intros Hn Ht Sn St.
  destruct (calculateProfitabilityScore_returns stock Hn Ht Sn St) as (p & Hp & Rp).
  destruct (calculateLeverageScore_range stock) as (l & Hl & Rl).
  destruct (calculateOperatingEfficiencyScore_range stock) as (o & Ho & Ro).
  exists (0 + p + l + o). split; [|lia].
  unfold generateFScore. rewrite Hp, bind_ok, Hl, bind_ok, Ho, bind_ok. reflexivity.
Qed.

Lemma generateFScore_returns_witness :
  exists n, generateFScore ex_full_history = Ok n /\ 0 <= n <= 9.
Proof.
  apply (generateFScore_returns ex_full_history); vm_compute; try reflexivity; discriminate.
Defined.

(** X13: whatever the record, an F-score that is returned is an integer
    from 0 to 9, and the profitability sub-score behind it one from 0 to
    4. *)
Theorem generateFScore_in_range (stock : gmap string value) (n : Z) :
  generateFScore stock = Ok n ->
  0 <= n <= 9
  /\ exists p, calculateProfitabilityScore stock = Ok p /\ 0 <= p <= 4.
Proof.
  intros H. split; [apply (generateFScore_range stock n H)|].
  unfold generateFScore in H. apply bind_inv in H. destruct H as (p & Hp & _).
  exists p. split; [exact Hp|apply (calculateProfitabilityScore_range stock p Hp)].
Qed.

Lemma generateFScore_in_range_witness :
  0 <= 9 <= 9
  /\ exists p, calculateProfitabilityScore ex_full_history = Ok p /\ 0 <= p <= 4.
Proof.
  apply (generateFScore_in_range ex_full_history 9). vm_compute. reflexivity.
Defined.

(** X14: the profitability check asserts its net-profit entries to be
    strings. With the year before the last of "Net Profit +" stored as
    anything else, a native number say, the check panics on the failed
    assertion, however long the history. *)
Theorem calculateProfitabilityScore_native_number_panics (stock : gmap string value) :
  let netProfit := getNestedArrayField stock ["profitLoss"; "Net Profit +"] in
  2 <= len netProfit ->
  is_string (nth (Z.to_nat (len netProfit - 2)) netProfit VNil) = false ->
  calculateProfitabilityScore stock = Panic TypeAssertion.
Proof.
  intros netProfit Hlen Hns.
  assert (Hidx : (index netProfit (len netProfit - 2) ≫= assert_string)
                 = Panic TypeAssertion).
  { rewrite index_ok by lia. rewrite bind_ok.
    destruct (nth (Z.to_nat (len netProfit - 2)) netProfit VNil); try reflexivity.
    discriminate. }
  unfold calculateProfitabilityScore, increaseInRoa. fold netProfit.
  generalize (getNestedArrayField stock ["balanceSheet"; "Total Assets"]).
  generalize (getNestedArrayField stock ["cashFlows"; "Cash from Operating Activity +"]).
  intros cashFlowOps totalAssets.
  rewrite Hidx.
  destruct ((0 <? len netProfit) && (0 <? len totalAssets)); [reflexivity|].
  rewrite !bind_ok.
  destruct (1 <? len cashFlowOps) eqn:E.
  - apply Z.ltb_lt in E.
    rewrite (index_ok cashFlowOps (len cashFlowOps - 1)) by lia.
    rewrite (index_ok cashFlowOps (len cashFlowOps - 2)) by lia.
    rewrite !bind_ok. reflexivity.
  - rewrite !bind_ok. reflexivity.
Qed.

Lemma calculateProfitabilityScore_native_number_panics_witness :
  calculateProfitabilityScore ex_native_profit = Panic TypeAssertion.
Proof.
  apply (calculateProfitabilityScore_native_number_panics ex_native_profit);
    vm_compute; [discriminate|reflexivity].
Defined.

(** ** [toStringArray] *)

(** X15: [toStringArray] gives back the strings of an array of strings, in
    their order; an element that is not a string is dropped without a
    word, and so is everything when the value is no array. *)
Theorem toStringArray_keeps_strings :
  (forall l : list string, toStringArray (VArr (VString <$> l)) = l)
  /\ (forall (a b : list value) (v : value),
        is_string v = false ->
        toStringArray (VArr (a ++ v :: b)) = toStringArray (VArr (a ++ b)))
  /\ (forall v : value, is_array v = false -> toStringArray v = []).
Proof.
  split; [|split].
  - induction l as [|s l IH]; [reflexivity|].
    unfold toStringArray in *. cbn. f_equal. exact IH.
  - intros a b v Hv. unfold toStringArray.
    induction a as [|x a IH]; simpl.
    + destruct v; try reflexivity. discriminate.
    + destruct x; cbn; first [exact IH | f_equal; exact IH].
  - intros v Hv. destruct v; try reflexivity. discriminate.
Qed.

(** ** The market-cap category and the order of floats *)

(** Comparing two floats the other way round gives the opposite answer. *)
Lemma SFcompare_antisym (x y : spec_float) (r : comparison) :
  SFcompare x y = Some r -> SFcompare y x = Some (CompOpp r).
Proof.
  destruct x as [sx|sx| |sx mx ex], y as [sy|sy| |sy my ey]; simpl;
    intros H; try discriminate; injection H as <-;
    try (destruct sx; reflexivity); try (destruct sy; reflexivity);
    try (destruct sx, sy; reflexivity).
  destruct sx, sy; try reflexivity; f_equal;
    rewrite (Z.compare_antisym ex ey); destruct (ex ?= ey); simpl; try reflexivity;
    try f_equal; symmetry; exact (Pos.compare_cont_antisym mx my Eq).
Qed.

(** A float that is not NaN is below a bound or at least the bound. *)
Lemma float_lt_or_ge (x c : float) :
  is_nan x = false -> is_nan c = false -> (x <? c)%float = false -> (c <=? x)%float = true.
Proof.
  unfold is_nan.
  rewrite !FloatAxioms.eqb_spec, FloatAxioms.ltb_spec, FloatAxioms.leb_spec.
  unfold SFeqb, SFltb, SFleb. intros Hx Hc.
  destruct (SFcompare (Prim2SF x) (Prim2SF c)) as [r|] eqn:E.
  - rewrite (SFcompare_antisym _ _ _ E). destruct r; simpl; congruence.
  - destruct (Prim2SF x), (Prim2SF c); simpl in *; discriminate.
Qed.

Lemma float_nan_compares (x c : float) :
  is_nan x = true -> (x <? c)%float = false /\ (c <=? x)%float = false.
Proof.
  unfold is_nan.
  rewrite !FloatAxioms.eqb_spec, FloatAxioms.ltb_spec, FloatAxioms.leb_spec.
  unfold SFeqb, SFltb, SFleb. intros Hx.
  destruct (Prim2SF x); simpl in *; try (destruct s; discriminate).
  - split; [reflexivity|destruct (Prim2SF c); reflexivity].
  - exfalso. revert Hx. destruct s; simpl; rewrite Z.compare_refl, Pos.compare_cont_refl;
      discriminate.
Qed.

(** X16: "Unknown Category" is the answer for NaN and for nothing else:
    [getMarketCapCategory] returns it exactly when the text, its commas
    removed, parses to NaN. Every other text, unparsable or not, gets one
    of the three size categories. *)
Theorem getMarketCapCategory_unknown_iff_nan (marketCapValue : string) :
  getMarketCapCategory marketCapValue = "Unknown Category"
  <-> is_nan (strconv.ParseFloat (strings.ReplaceAll marketCapValue "," "")).1 = true.
Proof.
  unfold getMarketCapCategory.
  destruct (strconv.ParseFloat (strings.ReplaceAll marketCapValue "," "")) as [x e].
  simpl fst. destruct (is_nan x) eqn:Hn.
  - destruct (float_nan_compares x 20000 Hn) as [H1 H2].
    destruct (float_nan_compares x 5000 Hn) as [H3 H4].
    rewrite H2, H4, H3. simpl. split; reflexivity.
  - split; [|discriminate]. intros H. exfalso. revert H.
    destruct (20000 <=? x)%float eqn:Ege; [discriminate|].
    destruct (x <? 5000)%float eqn:E5.
    + destruct ((5000 <=? x)%float && (x <? 20000)%float); discriminate.
    + rewrite (float_lt_or_ge x 5000 Hn eq_refl E5).
      destruct (x <? 20000)%float eqn:E20; [discriminate|].
      pose proof (float_lt_or_ge x 20000 Hn eq_refl E20). congruence.
Qed.

(** ** [regexp]: the matcher finds what the expression matches *)

Lemma matches_nil_nullable (r : regexp.regex) (w : list Z) :
  matches r w -> w = [] -> regexp.nullable r = true.
Proof.
  induction 1; intros E; try discriminate; try reflexivity; simpl.
  - apply app_eq_nil in E. destruct E as [-> ->]. now rewrite IHmatches1, IHmatches2.
  - now rewrite IHmatches.
  - rewrite IHmatches by assumption. apply orb_true_r.
Qed.

Lemma nullable_matches_nil (r : regexp.regex) :
  regexp.nullable r = true -> matches r [].
Proof.
  induction r; simpl; intros H; try discriminate.
  - apply MEmpty.
  - apply andb_prop in H. destruct H as [H1 H2].
    change (@nil Z) with (@nil Z ++ []). apply MCat; auto.
  - apply orb_prop in H. destruct H as [H|H]; [apply MAltL|apply MAltR]; auto.
  - apply MStarNil.
  - apply MOptNil.
Qed.

(** A non-empty match of a star starts with a non-empty match of its
    body. *)
Lemma matches_star_cons (r : regexp.regex) (l : list Z) :
  matches (regexp.Star r) l -> forall c w, l = c :: w ->
  exists u v, w = u ++ v /\ matches r (c :: u) /\ matches (regexp.Star r) v.
Proof.
  intros H. remember (regexp.Star r) as sr eqn:Esr.
  induction H; intros c0 w E; try discriminate Esr; try discriminate E.
  injection Esr as ->. destruct u as [|c' u].
  - simpl in E. apply IHmatches2; [reflexivity|exact E].
  - simpl in E. injection E as -> <-. exists u, v. auto.
Qed.

Lemma matches_cat_inv (r s : regexp.regex) (w : list Z) :
  matches (regexp.Cat r s) w -> exists u v, w = u ++ v /\ matches r u /\ matches s v.
Proof. intros H. inversion H; subst. eauto. Qed.

Lemma matches_alt_inv (r s : regexp.regex) (w : list Z) :
  matches (regexp.Alt r s) w -> matches r w \/ matches s w.
Proof. intros H. inversion H; subst; auto. Qed.

Lemma matches_opt_inv (r : regexp.regex) (w : list Z) :
  matches (regexp.Opt r) w -> w = [] \/ matches r w.
Proof. intros H. inversion H; subst; auto. Qed.

Lemma deriv_matches (r : regexp.regex) :
  forall c w, matches (regexp.deriv c r) w <-> matches r (c :: w).
Proof.
  induction r as [| |x| | |r1 IHr1 r2 IHr2|r1 IHr1 r2 IHr2|r IHr|r IHr]; intros c w; simpl.
  - split; intros H; inversion H.
  - split; intros H; inversion H.
  - destruct (Z.eqb_spec c x) as [->|Hne]; split; intros H; inversion H; subst.
    + constructor.
    + constructor.
    + contradiction.
  - destruct (regexp.is_space c) eqn:E; split; intros H; inversion H; subst.
    + now constructor.
    + constructor.
    + congruence.
  - destruct (Z.eqb_spec c 10) as [->|Hne]; split; intros H; inversion H; subst.
    + contradiction.
    + now constructor.
    + constructor.
  - assert (Hcat : forall u v, matches r1 (c :: u) -> matches r2 v ->
                               matches (regexp.Cat r1 r2) (c :: u ++ v)).
    { intros u v Hu Hv. change (c :: u ++ v) with ((c :: u) ++ v). now apply MCat. }
    destruct (regexp.nullable r1) eqn:Hn.
    + split; intros H.
      * apply matches_alt_inv in H. destruct H as [H|H].
        -- apply matches_cat_inv in H. destruct H as (u & v & -> & Hu & Hv).
           apply Hcat; [now apply IHr1|exact Hv].
        -- apply IHr2 in H. change (c :: w) with ([] ++ c :: w).
           apply MCat; [now apply nullable_matches_nil|exact H].
      * apply matches_cat_inv in H. destruct H as (u & v & E & Hu & Hv).
        destruct u as [|c' u].
        -- simpl in E. subst v. apply MAltR. now apply IHr2.
        -- simpl in E. injection E as -> ->. apply MAltL.
           apply MCat; [now apply IHr1|exact Hv].
    + split; intros H.
      * apply matches_cat_inv in H. destruct H as (u & v & -> & Hu & Hv).
        apply Hcat; [now apply IHr1|exact Hv].
      * apply matches_cat_inv in H. destruct H as (u & v & E & Hu & Hv).
        destruct u as [|c' u].
        -- apply matches_nil_nullable in Hu; [congruence|reflexivity].
        -- simpl in E. injection E as -> ->. apply MCat; [now apply IHr1|exact Hv].
  - split; intros H; apply matches_alt_inv in H;
      (destruct H as [H|H]; [apply MAltL; now apply IHr1|apply MAltR; now apply IHr2]).
  - split; intros H.
    + apply matches_cat_inv in H. destruct H as (u & v & -> & Hu & Hv).
      apply IHr in Hu. change (c :: u ++ v) with ((c :: u) ++ v). now apply MStarApp.
    + destruct (matches_star_cons r (c :: w) H c w eq_refl) as (u & v & -> & Hu & Hv).
      apply MCat; [now apply IHr|exact Hv].
  - split; intros H.
    + apply MOptOne. now apply IHr.
    + apply matches_opt_inv in H. destruct H as [H|H]; [discriminate|now apply IHr].
Qed.

Lemma prefix_match_spec (l : list Z) :
  forall r, regexp.prefix_match r l = true <-> exists w post, l = w ++ post /\ matches r w.
Proof.
  induction l as [|c l IH]; intros r; simpl.
  - rewrite orb_false_r. split.
    + intros H. exists [], []. split; [reflexivity|now apply nullable_matches_nil].
    + intros (w & post & E & H). symmetry in E. apply app_eq_nil in E. destruct E as [-> _].
      now apply (matches_nil_nullable r []).
  - split.
    + intros H. apply orb_prop in H. destruct H as [H|H].
      * exists [], (c :: l). split; [reflexivity|now apply nullable_matches_nil].
      * apply IH in H. destruct H as (w & post & -> & H).
        exists (c :: w), post. split; [reflexivity|now apply deriv_matches].
    + intros (w & post & E & H). destruct w as [|c' w].
      * rewrite (matches_nil_nullable r [] H eq_refl). reflexivity.
      * simpl in E. injection E as <- ->. apply orb_true_intro. right.
        apply IH. exists w, post. split; [reflexivity|now apply deriv_matches].
Qed.

Lemma search_spec (r : regexp.regex) (l : list Z) :
  regexp.search r l = true
  <-> exists pre w post, l = pre ++ w ++ post /\ matches r w.
Proof.
  induction l as [|c l IH]; cbn [regexp.search].
  - cbn [regexp.prefix_match]. rewrite !orb_false_r. split.
    + intros H. exists [], [], []. split; [reflexivity|now apply nullable_matches_nil].
    + intros (pre & w & post & E & H).
      destruct pre; [|discriminate]. destruct w; [|discriminate].
      now apply (matches_nil_nullable r []).
  - split.
    + intros H. apply orb_prop in H. destruct H as [H|H].
      * apply (prefix_match_spec (c :: l)) in H. destruct H as (w & post & E & H).
        exists [], w, post. split; [exact E|exact H].
      * apply IH in H. destruct H as (pre & w & post & -> & H).
        exists (c :: pre), w, post. split; [reflexivity|exact H].
    + intros (pre & w & post & E & H). apply orb_true_intro.
      destruct pre as [|c' pre].
      * left. apply (prefix_match_spec (c :: l)). exists w, post. split; [exact E|exact H].
      * right. simpl in E. injection E as <- ->. apply IH.
        exists pre, w, post. split; [reflexivity|exact H].
Qed.

(** ** Plain words as patterns *)

Lemma is_prefix_spec (p : list Z) :
  forall l, is_prefix p l = true <-> exists post, l = p ++ post.
Proof.
  induction p as [|a p IH]; intros l; simpl.
  - split; [intros _; now exists l|reflexivity].
  - destruct l as [|b l].
    + split; [discriminate|]. intros [post E]. discriminate.
    + split.
      * intros H. apply andb_prop in H. destruct H as [Hab H].
        apply Z.eqb_eq in Hab. subst b. apply IH in H. destruct H as [post ->].
        now exists post.
      * intros [post E]. injection E as -> ->. rewrite Z.eqb_refl. simpl.
        apply IH. now exists post.
Qed.

Lemma contains_bytes_spec (p l : list Z) :
  strings.contains_bytes p l = true <-> exists pre post, l = pre ++ p ++ post.
Proof.
  induction l as [|c l IH]; cbn [strings.contains_bytes].
  - rewrite orb_false_r. rewrite is_prefix_spec. split.
    + intros [post E]. now exists [], post.
    + intros (pre & post & E). destruct pre; [|discriminate]. now exists post.
  - split.
    + intros H. apply orb_prop in H. destruct H as [H|H].
      * apply is_prefix_spec in H. destruct H as [post E]. now exists [], post.
      * apply IH in H. destruct H as (pre & post & ->). now exists (c :: pre), post.
    + intros (pre & post & E). apply orb_true_intro. destruct pre as [|c' pre].
      * left. apply is_prefix_spec. now exists post.
      * right. simpl in E. injection E as <- ->. apply IH. now exists pre, post.
Qed.

Lemma parse_literal (s : list Z) :
  forall seq last, forallb literal_byte s = true ->
  regexp.parse s [] seq last
  = Some (fold_left (fun r c => regexp.Cat r (regexp.Byte c)) s
            match last with Some (r, _) => regexp.Cat seq r | None => seq end).
Proof.
  induction s as [|c s IH]; intros seq last H.
  - reflexivity.
  - cbn [forallb] in H. apply andb_prop in H. destruct H as [Hc H].
    unfold literal_byte in Hc. apply negb_true_iff in Hc.
    repeat (apply orb_false_iff in Hc; let H' := fresh "Hc" in destruct Hc as [Hc H']).
    cbn [regexp.parse fold_left].
    repeat match goal with E : _ = false |- _ => rewrite E; clear E end.
    cbn [orb]. rewrite IH by exact H. reflexivity.
Qed.

Lemma matches_literal (s : list Z) :
  forall acc w,
  matches (fold_left (fun r c => regexp.Cat r (regexp.Byte c)) s acc) w
  <-> exists u, w = u ++ s /\ matches acc u.
Proof.
  induction s as [|c s IH]; intros acc w; cbn [fold_left].
  - split.
    + intros H. exists w. now rewrite app_nil_r.
    + intros (u & -> & H). now rewrite app_nil_r.
  - rewrite IH. split.
    + intros (u' & -> & H). apply matches_cat_inv in H.
      destruct H as (u & v & -> & Hu & Hv). inversion Hv; subst.
      exists u. split; [now rewrite <- app_assoc|exact Hu].
    + intros (u & -> & H). exists (u ++ [c]). split; [now rewrite <- app_assoc|].
      apply MCat; [exact H|apply MByte].
Qed.

Lemma MatchString_literal (pattern s : string) :
  literal_pattern pattern = true ->
  regexp.MatchString pattern s = strings.Contains s pattern.
Proof.
  intros H. unfold regexp.MatchString, regexp.Compile, strings.Contains.
  rewrite (parse_literal (bytes pattern) regexp.Empty None H).
  apply eq_true_iff_eq. rewrite search_spec, contains_bytes_spec. split.
  - intros (pre & w & post & -> & Hw). apply matches_literal in Hw.
    destruct Hw as (u & -> & Hu). inversion Hu; subst. now exists pre, post.
  - intros (pre & post & ->). exists pre, (bytes pattern), post. split; [reflexivity|].
    apply matches_literal. exists []. split; [reflexivity|apply MEmpty].
Qed.

(** ** The rows of a sheet *)

Lemma len_cons_eqb {A} (a : A) (l : list A) : (len (a :: l) =? 0) = false.
Proof. apply Z.eqb_neq. unfold len. simpl length. lia. Qed.

Lemma is_end_marker_nonempty (U : string -> string) (row : list string) :
  is_end_marker U row = true -> (len row =? 0) = false.
Proof. destruct row; [discriminate|intros _; apply len_cons_eqb]. Qed.

Lemma is_header_row_nonempty (U : string -> string) (row : list string) :
  is_header_row U row = true -> (len row =? 0) = false.
Proof. destruct row; [discriminate|intros _; apply len_cons_eqb]. Qed.

Lemma read_rows_marker (U : string -> string) (marker : list string)
    (after : list (list string)) :
  is_end_marker U marker = true ->
  forall rows headerMap,
  read_rows U (rows ++ marker :: after) true headerMap = read_rows U rows true headerMap.
Proof.
  intros Hm. induction rows as [|row rows IH]; intros headerMap; cbn [app read_rows negb].
  - now rewrite (is_end_marker_nonempty U marker Hm), Hm.
  - destruct (len row =? 0); [apply IH|].
    destruct (is_end_marker U row); [reflexivity|].
    destruct (read_row headerMap row); now rewrite IH.
Qed.

Lemma contains_bytes_app (sub pre l : list Z) :
  strings.contains_bytes sub l = true -> strings.contains_bytes sub (pre ++ l) = true.
Proof.
  rewrite !contains_bytes_spec. intros (a & b & ->).
  exists (pre ++ a), b. now rewrite <- app_assoc.
Qed.

Lemma build_header_app (U : string -> string) (row1 row2 : list string) :
  forall i headerMap,
  build_header U i (row1 ++ row2) headerMap
  = build_header U (i + len row1) row2 (build_header U i row1 headerMap).
Proof.
  induction row1 as [|cell row1 IH]; intros i headerMap; cbn [app build_header].
  - f_equal. unfold len. simpl. lia.
  - rewrite IH. f_equal. rewrite len_cons. lia.
Qed.

Lemma build_header_absent (U : string -> string) (key : string) (row : list string) :
  Forall (fun cell => header_key U cell <> Some key) row ->
  forall i headerMap, build_header U i row headerMap !! key = headerMap !! key.
Proof.
  induction 1 as [|cell row Hc _ IH]; intros i headerMap; cbn [build_header].
  - reflexivity.
  - rewrite IH. destruct (header_key U cell) as [k|]; [|reflexivity].
    apply lookup_insert_ne. congruence.
Qed.

Lemma build_header_inv (U : string -> string) (key : string) (row : list string) :
  forall i headerMap j,
  build_header U i row headerMap !! key = Some j ->
  headerMap !! key = Some j
  \/ (i <= j < i + len row /\ header_key U (nth (Z.to_nat (j - i)) row EmptyString) = Some key).
Proof.
  induction row as [|cell row IH]; intros i headerMap j H; cbn [build_header] in H.
  - now left.
  - apply IH in H. rewrite len_cons. destruct H as [H|[Hr Hk]].
    + destruct (header_key U cell) as [k|] eqn:Ek; [|now left].
      destruct (decide (k = key)) as [->|Hne].
      * rewrite lookup_insert_eq in H. injection H as <-. right.
        pose proof (len_nonneg row).
        split; [lia|]. replace (i - i) with 0 by lia. exact Ek.
      * rewrite lookup_insert_ne in H by exact Hne. now left.
    + right. split; [lia|].
      replace (Z.to_nat (j - i)) with (S (Z.to_nat (j - (i + 1)))) by lia. exact Hk.
Qed.

(** ** Further properties of [main.go]: headers and rows of a sheet *)

(** X17: a pattern that is a plain word is a test for a substring: a cell
    matches a list of such patterns exactly when one of the words occurs
    somewhere in the normalized cell. The pattern "isin" therefore matches
    "Raisins" as well. *)
Theorem matchHeader_plain_words (U : string -> string) (cellValue : string)
    (patterns : list string) :
  forallb literal_pattern patterns = true ->
  matchHeader U cellValue patterns
  = existsb (fun word => strings.Contains (normalizeString U cellValue) word) patterns.
Proof.
  unfold matchHeader. cbv zeta.
  induction patterns as [|pattern patterns IH]; intros H; [reflexivity|].
  cbn [forallb] in H. apply andb_prop in H. destruct H as [Hp H].
  cbn [existsb]. rewrite (MatchString_literal pattern _ Hp), (IH H). reflexivity.
Qed.

Lemma matchHeader_plain_words_witness :
  matchHeader ex_lower "Raisins" ["isin"; "quantity"]
  = existsb (fun word => strings.Contains (normalizeString ex_lower "Raisins") word)
      ["isin"; "quantity"]
  /\ matchHeader ex_lower "Raisins" ["isin"; "quantity"] = true.
Proof.
  split; [apply (matchHeader_plain_words ex_lower "Raisins" ["isin"; "quantity"])|];
    vm_compute; reflexivity.
Defined.

(** X18: when several columns of the header row are recognized under the
    same key, the last of them is the one the header map keeps. *)
Theorem build_header_last_column_wins (U : string -> string) (row1 row2 : list string)
    (headerCell key : string) (headerMap : gmap string Z) :
  header_key U headerCell = Some key ->
  Forall (fun cell => header_key U cell <> Some key) row2 ->
  build_header U 0 (row1 ++ headerCell :: row2) headerMap !! key = Some (len row1).
Proof.
  intros Hk Hrest. rewrite build_header_app. cbn [build_header]. rewrite Hk.
  rewrite (build_header_absent U key row2 Hrest). rewrite lookup_insert_eq.
  f_equal.
Qed.

Lemma build_header_last_column_wins_witness :
  header_key ex_lower "ISIN code" = Some "ISIN"
  /\ build_header ex_lower 0 (["Name of the Instrument"; "ISIN"] ++ "ISIN code" :: ["Quantity"]) ∅
     !! "ISIN" = Some 2.
Proof.
  split; [vm_compute; reflexivity|].
  apply (build_header_last_column_wins ex_lower ["Name of the Instrument"; "ISIN"]
           ["Quantity"] "ISIN code" "ISIN" ∅).
  - vm_compute; reflexivity.
  - constructor; [vm_compute; discriminate|constructor].
Defined.

(** X19: every key of the header map of a header row points into that
    row, at a cell the key was recognized in. *)
Theorem build_header_columns (U : string -> string) (row : list string)
    (key : string) (i : Z) :
  build_header U 0 row ∅ !! key = Some i ->
  0 <= i < len row /\ header_key U (nth (Z.to_nat i) row EmptyString) = Some key.
Proof.
  intros H. apply build_header_inv in H. destruct H as [H|[Hr Hk]].
  - rewrite lookup_empty in H. discriminate.
  - split; [lia|]. now replace (i - 0) with i in Hk by lia.
Qed.

Lemma build_header_columns_witness :
  0 <= 3 < len ex_header
  /\ header_key ex_lower (nth (Z.to_nat 3) ex_header EmptyString) = Some "Quantity".
Proof.
  apply (build_header_columns ex_lower ex_header "Quantity" 3). vm_compute. reflexivity.
Defined.

(** X20: the test for "subtotal" adds nothing to the test for "total": a
    row is an end marker exactly when its cells, joined and in lower case,
    contain "total", in whatever cell or across cells. A holding such as
    "Adani Total Gas Limited" is an end marker. *)
Theorem is_end_marker_total (U : string -> string) (row : list string) :
  is_end_marker U row
  = strings.Contains (strings.ToLower U (strings.Join row "")) "total".
Proof.
  unfold is_end_marker. cbv zeta. unfold strings.Contains.
  destruct (strings.contains_bytes (bytes "subtotal") _) eqn:Es; [|reflexivity].
  apply contains_bytes_spec in Es. destruct Es as (pre & post & Es).
  symmetry. rewrite Es. cbn [orb].
  change (bytes "subtotal") with (bytes "sub" ++ bytes "total").
  rewrite <- app_assoc, app_assoc. apply contains_bytes_app.
  apply contains_bytes_spec. now exists [], post.
Qed.

(** X21: a data row gives an instrument exactly when its cell in the name
    column is there and not empty. *)
Theorem read_row_none_iff (headerMap : gmap string Z) (row : list string) (idx : Z) :
  headerMap !! "Name of the Instrument" = Some idx ->
  0 <= idx ->
  read_row headerMap row = None
  <-> (len row <= idx \/ nth (Z.to_nat idx) row EmptyString = EmptyString).
Proof.
  intros H Hidx. unfold read_row. cbv zeta. rewrite lookup_fmap, H. cbn [fmap option_fmap option_map].
  assert (Hshort : len row <= idx -> nth (Z.to_nat idx) row EmptyString = EmptyString).
  { intros Hl. apply nth_overflow. unfold len in Hl. lia. }
  destruct (String.eqb_spec (nth (Z.to_nat idx) row EmptyString) "") as [E|E].
  - split; [now right|reflexivity].
  - destruct (mapValues !! nth (Z.to_nat idx) row EmptyString); split;
      try discriminate; intros [Hl|Hn]; try contradiction; apply Hshort in Hl; contradiction.
Qed.

Lemma read_row_none_iff_witness :
  read_row {[ "Name of the Instrument" := 0; "ISIN" := 1 ]} [""; "INE1"] = None
  <-> (len [""; "INE1"] <= 0 \/ nth (Z.to_nat 0) [""; "INE1"] EmptyString = EmptyString).
Proof.
  apply (read_row_none_iff {[ "Name of the Instrument" := 0; "ISIN" := 1 ]} [""; "INE1"] 0);
    [vm_compute; reflexivity|lia].
Defined.

(** X22: in the instrument of a row, a header column the row does not
    reach holds the empty string. *)
Theorem read_row_missing_cell (headerMap : gmap string Z) (row : list string)
    (instrument : instrument_row) (key : string) (idx : Z) :
  read_row headerMap row = Some instrument ->
  headerMap !! key = Some idx ->
  len row <= idx ->
  stockDetail instrument !! key = Some EmptyString.
Proof.
  intros H Hk Hl. unfold read_row in H. cbv zeta in H.
  assert (Hcell : ((fun idx => nth (Z.to_nat idx) row EmptyString) <$> headerMap) !! key
                  = Some EmptyString).
  { rewrite lookup_fmap, Hk. cbn. f_equal. apply nth_overflow. unfold len in Hl. lia. }
  destruct (decide (key = "Name of the Instrument")) as [->|Hne].
  - rewrite Hcell in H. discriminate.
  - destruct (_ !! "Name of the Instrument") as [name|]; [|discriminate].
    destruct (String.eqb name ""); [discriminate|].
    destruct (mapValues !! name); injection H as <-; cbn [stockDetail].
    + rewrite lookup_insert_ne by congruence. exact Hcell.
    + exact Hcell.
Qed.

Lemma read_row_missing_cell_witness :
  exists instrument,
    read_row {[ "Name of the Instrument" := 0; "Quantity" := 3 ]}
      ["KEC International Limited"; "INE389H01022"] = Some instrument
    /\ stockDetail instrument !! "Quantity" = Some EmptyString.
Proof.
  eexists. split; [vm_compute; reflexivity|].
  apply (read_row_missing_cell {[ "Name of the Instrument" := 0; "Quantity" := 3 ]}
           ["KEC International Limited"; "INE389H01022"] _ "Quantity" 3);
    vm_compute; try reflexivity; discriminate.
Defined.

(** X23: the rows of a sheet above its header row are not read: rows
    without a cell naming the instrument column, standing first, change
    nothing; and a sheet without a header row gives no instrument. *)
Theorem read_sheet_skips_to_header (U : string -> string)
    (above rows : list (list string)) :
  Forall (fun row => is_header_row U row = false) above ->
  read_sheet U (above ++ rows) = read_sheet U rows
  /\ read_sheet U above = [].
Proof.
  intros H. unfold read_sheet.
  assert (G : forall rest, read_rows U (above ++ rest) false ∅ = read_rows U rest false ∅).
  { intros rest. induction H as [|row above Hrow _ IH]; [reflexivity|].
    cbn [app read_rows negb]. rewrite Hrow. now destruct (len row =? 0). }
  split; [apply G|]. rewrite <- (app_nil_r above). apply G.
Qed.

Lemma read_sheet_skips_to_header_witness :
  read_sheet ex_lower (ex_above ++ ex_header :: ex_holdings)
  = read_sheet ex_lower (ex_header :: ex_holdings)
  /\ read_sheet ex_lower ex_above = [].
Proof.
  apply (read_sheet_skips_to_header ex_lower ex_above (ex_header :: ex_holdings)).
  repeat constructor.
Defined.

(** X24: an empty row is passed over wherever it stands: taking it out of
    the sheet changes nothing. *)
Theorem read_sheet_empty_row (U : string -> string) (rows1 rows2 : list (list string)) :
  read_sheet U (rows1 ++ [] :: rows2) = read_sheet U (rows1 ++ rows2).
Proof.
  unfold read_sheet. generalize (∅ : gmap string Z) as headerMap. generalize false as headerFound.
  induction rows1 as [|row rows1 IH]; intros headerFound headerMap; [reflexivity|].
  cbn [app read_rows]. destruct (len row =? 0); [apply IH|].
  destruct (negb headerFound).
  - destruct (is_header_row U row); apply IH.
  - destruct (is_end_marker U row); [reflexivity|].
    destruct (read_row headerMap row); now rewrite IH.
Qed.

(** X25: once the header row has been met, the first end marker ends the
    reading: the rows after it have no part in the result, and the
    marker row itself gives no instrument. *)
Theorem read_sheet_stops_at_end_marker (U : string -> string)
    (above : list (list string)) (header : list string)
    (rows : list (list string)) (marker : list string) (below : list (list string)) :
  is_header_row U header = true ->
  is_end_marker U marker = true ->
  read_sheet U (above ++ header :: rows ++ marker :: below)
  = read_sheet U (above ++ header :: rows).
Proof.
  intros Hh Hm. unfold read_sheet.
  generalize (∅ : gmap string Z) as headerMap. generalize false as headerFound.
  induction above as [|row above IH]; intros headerFound headerMap; cbn [app read_rows].
  - rewrite (is_header_row_nonempty U header Hh), Hh.
    destruct headerFound; cbn [negb]; [|apply (read_rows_marker U marker below Hm)].
    destruct (is_end_marker U header); [reflexivity|].
    destruct (read_row headerMap header); now rewrite (read_rows_marker U marker below Hm).
  - destruct (len row =? 0); [apply IH|].
    destruct (negb headerFound).
    + destruct (is_header_row U row); apply IH.
    + destruct (is_end_marker U row); [reflexivity|].
      destruct (read_row headerMap row); now rewrite IH.
Qed.

Lemma read_sheet_stops_at_end_marker_witness :
  is_header_row ex_lower ex_header = true
  /\ is_end_marker ex_lower ex_marker = true
  /\ read_sheet ex_lower (ex_above ++ ex_header :: ex_holdings ++ ex_marker :: ex_below)
     = read_sheet ex_lower (ex_above ++ ex_header :: ex_holdings)
  /\ List.map instrumentName (read_sheet ex_lower (ex_above ++ ex_header :: ex_holdings))
     = ["Tata Steel Limited"; "K E C Intl."].
Proof.
  split; [vm_compute; reflexivity|]. split; [vm_compute; reflexivity|].
  split; [|vm_compute; reflexivity].
  apply (read_sheet_stops_at_end_marker ex_lower ex_above ex_header ex_holdings
           ex_marker ex_below); vm_compute; reflexivity.
Defined.

Lemma matches_word (s w : list Z) :
  matches (fold_left (fun r c => regexp.Cat r (regexp.Byte c)) s regexp.Empty) w <-> w = s.
Proof.
  rewrite matches_literal. split.
  - intros (u & -> & H). inversion H; subst. reflexivity.
  - intros ->. exists []. split; [reflexivity|apply MEmpty].
Qed.

(** X26: [checkInstrumentName] is the test for one of two substrings,
    "Name of the Instrument" and "Name of Instrument", in exactly this
    case: unlike [matchHeader] it does not normalize its input. *)
Theorem checkInstrumentName_two_spellings (input : string) :
  checkInstrumentName input
  = strings.Contains input "Name of the Instrument"
    || strings.Contains input "Name of Instrument".
Proof.
  unfold checkInstrumentName, regexp.MatchString, strings.Contains. cbv zeta.
  set (word := fold_left (fun r c => regexp.Cat r (regexp.Byte c))).
  change (regexp.Compile "Name of (the )?Instrument")
    with (Some (word (bytes "Instrument")
                  (regexp.Cat (word (bytes "Name of ") regexp.Empty)
                     (regexp.Opt (word (bytes "the ") regexp.Empty))))).
  apply eq_true_iff_eq. rewrite search_spec, orb_true_iff, !contains_bytes_spec. split.
  - intros (pre & w & post & -> & Hw). apply matches_literal in Hw.
    destruct Hw as (u & -> & Hu). apply matches_cat_inv in Hu.
    destruct Hu as (a & b & -> & Ha & Hb). apply matches_word in Ha. subst a.
    apply matches_opt_inv in Hb. destruct Hb as [->|Hb].
    + right. now exists pre, post.
    + apply matches_word in Hb. subst b. left. now exists pre, post.
  - intros [(pre & post & ->)|(pre & post & ->)].
    + exists pre, (bytes "Name of the Instrument"), post. split; [reflexivity|].
      apply matches_literal. exists (bytes "Name of " ++ bytes "the ").
      split; [reflexivity|]. apply MCat; [now apply matches_word|].
      apply MOptOne. now apply matches_word.
    + exists pre, (bytes "Name of Instrument"), post. split; [reflexivity|].
      apply matches_literal. exists (bytes "Name of " ++ []).
      split; [reflexivity|]. apply MCat; [now apply matches_word|apply MOptNil].
Qed.

(** ** The cells of a table row *)

Lemma index_string_ok (a : list string) (i : Z) :
  0 <= i < len a -> index_string a i = Ok (nth (Z.to_nat i) a EmptyString).
Proof.
  intros [H0 H1]. unfold index_string.
  destruct (Z.leb_spec 0 i); [|lia]. destruct (Z.ltb_spec i (len a)); [|lia].
  reflexivity.
Qed.

Lemma drop_nth (a : list string) (n : nat) :
  (n < List.length a)%nat -> drop n a = nth n a EmptyString :: drop (S n) a.
Proof.
  revert n. induction a as [|x a IH]; intros n H; simpl in H; [lia|].
  destruct n as [|n]; [reflexivity|]. simpl. apply IH. lia.
Qed.

Lemma quarter_columns_within (months : list string) (cols : list string) :
  forall colIndex fieldData,
  1 <= colIndex -> colIndex + len cols <= len months ->
  quarter_columns months colIndex cols fieldData
  = Ok (fieldData
        ++ zip_with (fun month col => {[ month := strings.TrimSpace col ]})
             (drop (Z.to_nat colIndex) months) cols).
Proof.
  induction cols as [|col cols IH]; intros colIndex fieldData H1 H2.
  - cbn [quarter_columns]. destruct (drop _ months); cbn; now rewrite app_nil_r.
  - rewrite len_cons in H2. pose proof (len_nonneg cols) as Hc.
    cbn [quarter_columns].
    destruct (Z.ltb_spec 0 colIndex); [|lia].
    destruct (Z.leb_spec colIndex (len months)); [|lia]. cbn [andb].
    rewrite index_string_ok by lia. rewrite bind_ok.
    rewrite IH by lia.
    rewrite (drop_nth months (Z.to_nat colIndex)) by (unfold len in *; lia).
    replace (Z.to_nat (colIndex + 1)) with (S (Z.to_nat colIndex)) by lia.
    cbn [zip_with]. now rewrite <- app_assoc.
Qed.

Lemma quarter_columns_overrun (months : list string) (cols : list string) :
  forall colIndex fieldData,
  1 <= colIndex <= len months -> len months < colIndex + len cols ->
  quarter_columns months colIndex cols fieldData
  = Panic (IndexOutOfRange (len months) (len months)).
Proof.
  induction cols as [|col cols IH]; intros colIndex fieldData H1 H2.
  - unfold len in H2 at 2. simpl in H2. lia.
  - rewrite len_cons in H2. cbn [quarter_columns].
    destruct (Z.ltb_spec 0 colIndex); [|lia].
    destruct (Z.leb_spec colIndex (len months)); [|lia]. cbn [andb].
    destruct (Z.eq_dec colIndex (len months)) as [->|Hne].
    + unfold index_string. destruct (Z.ltb_spec (len months) (len months)); [lia|].
      rewrite andb_false_r. reflexivity.
    + rewrite index_string_ok by lia. rewrite bind_ok. apply IH; lia.
Qed.

Lemma table_values_fold (headers : list string) (cells : list string) :
  forall i values,
  1 <= i ->
  table_values headers i cells values
  = Ok (foldl (fun values p => <[p.1 := strings.TrimSpace p.2]> values) values
          (zip (drop (Z.to_nat (i - 1)) headers) cells)).
Proof.
  induction cells as [|cell cells IH]; intros i values H1.
  - cbn [table_values]. destruct (drop _ headers); reflexivity.
  - cbn [table_values]. destruct (Z.ltb_spec 0 i); [|lia].
    destruct (Z.leb_spec i (len headers)); cbn [andb].
    + rewrite index_string_ok by lia. rewrite bind_ok, IH by lia.
      rewrite (drop_nth headers (Z.to_nat (i - 1))) by (unfold len in *; lia).
      replace (Z.to_nat (i + 1 - 1)) with (S (Z.to_nat (i - 1))) by lia.
      reflexivity.
    + rewrite IH by lia.
      rewrite !drop_ge by (unfold len in *; lia). reflexivity.
Qed.

Lemma foldl_zip_fmap (f : string -> string) (l cells : list string) :
  forall values : gmap string string,
  foldl (fun values p => <[p.1 := strings.TrimSpace p.2]> values) values (zip (f <$> l) cells)
  = foldl (fun values p => <[f p.1 := strings.TrimSpace p.2]> values) values (zip l cells).
Proof.
  revert cells. induction l as [|x l IH]; intros cells values; [reflexivity|].
  destruct cells as [|cell cells]; [reflexivity|]. cbn. apply IH.
Qed.

(** ** Further properties of [main.go]: the cells of a table row *)

(** X27: the column loop of the quarterly results reads [months[colIndex]]
    under the guard [colIndex <= len(months)]: a row with more cells than
    there are months, as is a row with a label and one value for each
    month, makes it panic with index out of range at [len(months)]. *)
Theorem quarter_row_overrun (months cols : list string) :
  0 < len months -> len months < len cols ->
  quarter_row months cols = Panic (IndexOutOfRange (len months) (len months)).
Proof.
  intros Hm Hc. destruct cols as [|col cols].
  - unfold len in Hc at 2. simpl in Hc. lia.
  - rewrite len_cons in Hc. unfold quarter_row. cbn [quarter_columns].
    change ((0 <? 0) && (0 <=? len months)) with false. cbv iota.
    apply quarter_columns_overrun; lia.
Qed.

Lemma quarter_row_overrun_witness :
  quarter_months ex_quarter_headers = ["Mar 2023"; "Jun 2023"; "Sep 2023"]
  /\ quarter_row (quarter_months ex_quarter_headers) ex_quarter_row
     = Panic (IndexOutOfRange 3 3).
Proof.
  split; [vm_compute; reflexivity|].
  apply (quarter_row_overrun (quarter_months ex_quarter_headers) ex_quarter_row);
    vm_compute; reflexivity.
Defined.

(** X28: a row with no more cells than there are months is read without
    a panic, and the value of column [j] is filed under [months[j]]: the
    first month is never used, and with the months taken from a header
    row whose first cell is empty, every value stands under the month
    after its own. *)
Theorem quarter_row_shifted (months cols : list string) :
  len cols <= len months ->
  quarter_row months cols
  = Ok (zip_with (fun month col => {[ month := strings.TrimSpace col ]})
          (tail months) (tail cols)).
Proof.
  intros Hc. destruct cols as [|col cols].
  - cbn. now destruct (tail months).
  - rewrite len_cons in Hc. unfold quarter_row. cbn [quarter_columns].
    change ((0 <? 0) && (0 <=? len months)) with false. cbv iota.
    rewrite quarter_columns_within by lia. cbn [app tail].
    now destruct months.
Qed.

Lemma quarter_row_shifted_witness :
  quarter_row (quarter_months ex_quarter_headers) ["Sales +"; "10"; "12"]
  = Ok (zip_with (fun month col => {[ month := strings.TrimSpace col ]})
          (tail (quarter_months ex_quarter_headers)) (tail ["Sales +"; "10"; "12"]))
  /\ quarter_row (quarter_months ex_quarter_headers) ["Sales +"; "10"; "12"]
     = Ok [ {[ "Jun 2023" := "10" ]}; {[ "Sep 2023" := "12" ]} ].
Proof.
  split; [|vm_compute; reflexivity].
  apply (quarter_row_shifted (quarter_months ex_quarter_headers) ["Sales +"; "10"; "12"]).
  vm_compute. discriminate.
Defined.

(** X29: the cell loop of [parseTable] never panics, and files the cell
    [i] of a row under the header cell [i] of the table, both from the
    second on; cells beyond the headers are left out, and of two cells
    under equal headers the later stays. *)
Theorem table_row_aligned (headers cells : list string) :
  table_row (table_headers headers) cells
  = Ok (foldl (fun values p => <[strings.TrimSpace p.1 := strings.TrimSpace p.2]> values) ∅
          (zip (tail headers) (tail cells))).
Proof.
  unfold table_row, table_headers. destruct cells as [|cell cells].
  - cbn. now destruct (tail headers).
  - cbn [table_values]. change ((0 <? 0) && (0 <=? len (strings.TrimSpace <$> tail headers))) with false.
    cbv iota. rewrite table_values_fold by lia. cbn [tail].
    change (Z.to_nat (0 + 1 - 1)) with 0%nat. rewrite drop_0.
    now rewrite foldl_zip_fmap.
Qed.
